(** * minifyImage: the conversion-and-compression pipeline of [badge.js]

    A shallow embedding of [badge.js] and the properties its specification
    states about it.

    The program is a Node.js script.  Its own functions are embedded one by
    one, under their source names.  What it calls but does not define (Node's
    [path] module, [sharp], [axios], [glob], [fs/promises], the environment
    variable) is taken as an interface: the [path] functions as the class
    [PathLib], everything that performs I/O as the oracle record [Env].

    Asynchrony is modelled as Node runs it: one callback at a time, the
    continuations after it (micro-tasks) run to the next [await] before any
    other I/O completion is delivered.  A machine state holds the pending
    derivative tasks; one machine step delivers one I/O completion, chosen by
    the schedule. *)

From Stdlib Require Import ZArith String Ascii Bool Lia.
From Stdlib.Strings Require Import Byte.
From stdpp Require Import base list strings gmap.

Local Open Scope string_scope.

(** ** Strings *)

(** [String.prototype.toLowerCase], on the ASCII letters.  The extension is
    only ever compared with [".png"], [".jpg"] and [".jpeg"]; no character
    outside ASCII lower-cases to one of the letters of these three words, so
    the ASCII rule decides the comparisons exactly as the full Unicode rule
    does. *)
Definition lower_ascii (c : ascii) : ascii :=
  let n := nat_of_ascii c in
  if (65 <=? n)%nat && (n <=? 90)%nat then ascii_of_nat (n + 32) else c.

Fixpoint toLowerCase (s : string) : string :=
  match s with
  | EmptyString => EmptyString
  | String c r => String (lower_ascii c) (toLowerCase r)
  end.

(** Two strings are the same up to the case of their letters. *)
Definition same_nocase (a b : string) : Prop := toLowerCase a = toLowerCase b.

(** ** Node's [path] module, as an interface *)

Class PathLib := {
  (** [path.extname(p)] *)
  extname : string -> string;
  (** [path.basename(p, suffix)] *)
  basename : string -> string -> string;
  (** [path.join(a, b)] *)
  join : string -> string -> string;
}.

(** *** The POSIX flavour of the interface

    Written after the documented behaviour of Node's [path.posix]; used to
    run the model on concrete paths. *)
Module Posix.

Definition slash : ascii := "/"%char.
Definition dot : ascii := "."%char.

Definition chars (s : string) : list ascii := list_ascii_of_string s.
Definition text (l : list ascii) : string := string_of_list_ascii l.

(** The segments of a path between its slashes. *)
Fixpoint segments_aux (cur : list ascii) (l : list ascii) : list (list ascii) :=
  match l with
  | [] => [reverse cur]
  | c :: r =>
      if Ascii.eqb c slash then reverse cur :: segments_aux [] r
      else segments_aux (c :: cur) r
  end.

Definition segments (s : string) : list (list ascii) := segments_aux [] (chars s).

(** The last segment that is not empty: trailing slashes are ignored. *)
Definition last_part (s : string) : list ascii :=
  default [] (last (filter (fun seg => seg <> []) (segments s))).

(** Index of the last dot of a segment, if any. *)
Fixpoint last_dot_aux (i : nat) (l : list ascii) (found : option nat) : option nat :=
  match l with
  | [] => found
  | c :: r => last_dot_aux (S i) r (if Ascii.eqb c dot then Some i else found)
  end.

Definition last_dot (l : list ascii) : option nat := last_dot_aux 0 l None.

(** [extname]: from the last dot of the last part to its end; empty when
    there is no dot, when the last dot opens the part (dot files such as
    [.bashrc]), and for the part [..]. *)
Definition posix_extname (p : string) : string :=
  let part := last_part p in
  match last_dot part with
  | None => ""
  | Some i =>
      if (i =? 0)%nat then ""
      else if bool_decide (part = [dot; dot]) then ""
      else text (drop i part)
  end.

(** Does [l] end with [suf]? *)
Definition ends_with (suf l : list ascii) : bool :=
  bool_decide (drop (length l - length suf) l = suf).

(** [basename]: the last part, without [suffix] when the part ends with it
    and is longer than it. *)
Definition posix_basename (p suffix : string) : string :=
  let part := last_part p in
  let suf := chars suffix in
  if bool_decide (suf <> []) && bool_decide (p = suffix) then ""
  else if bool_decide (suf <> []) && (length suf <? length part)%nat && ends_with suf part
  then text (take (length part - length suf) part)
  else text part.

(** [normalize]'s walk over the segments: empty and [.] segments vanish,
    [..] removes the segment before it (or stays, above a relative start). *)
Fixpoint walk (absolute : bool) (stack : list (list ascii)) (segs : list (list ascii))
  : list (list ascii) :=
  match segs with
  | [] => reverse stack
  | seg :: r =>
      if bool_decide (seg = []) || bool_decide (seg = [dot]) then walk absolute stack r
      else if bool_decide (seg = [dot; dot]) then
        match stack with
        | top :: below =>
            if bool_decide (top = [dot; dot]) then walk absolute (seg :: stack) r
            else walk absolute below r
        | [] => if absolute then walk absolute [] r else walk absolute [seg] r
        end
      else walk absolute (seg :: stack) r
  end.

Fixpoint glue (segs : list (list ascii)) : list ascii :=
  match segs with
  | [] => []
  | [seg] => seg
  | seg :: r => seg ++ slash :: glue r
  end.

Definition posix_normalize (p : string) : string :=
  match chars p with
  | [] => "."
  | c :: _ =>
      let absolute := Ascii.eqb c slash in
      let trailing := bool_decide (last (chars p) = Some slash) in
      let body := glue (walk absolute [] (segments p)) in
      match body with
      | [] => if absolute then "/" else if trailing then "./" else "."
      | _ =>
          text ((if absolute then [slash] else []) ++ body
                ++ (if trailing then [slash] else []))
      end
  end.

Definition posix_join (a b : string) : string :=
  if bool_decide (a = "") then (if bool_decide (b = "") then "." else posix_normalize b)
  else if bool_decide (b = "") then posix_normalize a
  else posix_normalize (a ++ "/" ++ b).

End Posix.

#[export] Instance posix : PathLib := {
  extname := Posix.posix_extname;
  basename := Posix.posix_basename;
  join := Posix.posix_join;
}.


(** ** Data *)

Abbreviation Buffer := (list byte).

#[export] Instance byte_eq_decision : EqDecision byte :=
  fun x y =>
    match Byte.eqb x y as b return Byte.eqb x y = b -> Decision (x = y) with
    | true => fun E => left (@Byte.byte_dec_bl x y E)
    | false => fun E => right (@Byte.eqb_false x y E)
    end eq_refl.

(** How a promise returned by an external call settles. *)
Inductive Settled (A : Type) : Type :=
| Fulfilled (value : A)
| RejectedBy (reason : string).
Arguments Fulfilled {A} value.
Arguments RejectedBy {A} reason.

(** What [axios.post] resolves with, as far as the program reads it:
    [status], [headers.location], and the text
    [data?.message || JSON.stringify(data)] used in the error message. *)
Record ShrinkResponse := {
  shrink_status : Z;
  shrink_location : option string;
  shrink_message : string;
}.

(** What [axios.get] resolves with: [status] and [data]. *)
Record OutputResponse := {
  output_status : Z;
  output_data : Buffer;
}.

(** The options handed to [sharp]: [.jpeg({quality, mozjpeg})] or
    [.webp({quality})]. *)
Inductive Encoder :=
| jpeg (quality : nat) (mozjpeg : bool)
| webp (quality : nat).

#[export] Instance Encoder_eq_dec : EqDecision Encoder.
Proof. solve_decision. Defined.

(** The external libraries whose promises may reject. *)
Inductive Library := Sharp | Axios | Fs | Glob.

(** The errors that travel through the program: the four [new Error(...)] of
    [tinifyCompressBuffer], and whatever a library rejects with. *)
Inductive Error :=
| NoApiKey
| ShrinkFailed (status : Z) (msg : string)
| NoLocation
| DownloadFailed (status : Z)
| Raised (by_lib : Library) (reason : string).

(** The error taxonomy of the specification. *)
Inductive ErrorKind :=
| ConfigurationError | UploadError | DownloadError | EncodingError | OtherError.

Definition kind_of (e : Error) : ErrorKind :=
  match e with
  | NoApiKey => ConfigurationError
  | ShrinkFailed _ _ | NoLocation => UploadError
  | DownloadFailed _ => DownloadError
  | Raised Sharp _ => EncodingError
  | Raised _ _ => OtherError
  end.

(** The world outside the program: the environment variable, the working
    directory, and what the libraries answer.  An answer depends on the
    request alone: the same request gets the same answer whenever it is
    made. *)
Record Env := {
  (** [process.env.TINYPNG_API_KEY]; [None] is [undefined] *)
  API_KEY : option string;
  (** [process.cwd()] *)
  ROOT : string;
  (** [fs.mkdir(dir, {recursive: true})] *)
  fs_mkdir : string -> Settled unit;
  (** [glob(pattern)] *)
  glob : string -> Settled (list string);
  (** [sharp(srcPath).jpeg/webp(options).toBuffer()] *)
  sharp : string -> Encoder -> Settled Buffer;
  (** [axios.post("https://api.tinify.com/shrink", body, ...)], with the
      credential its [Authorization] header is built from *)
  axios_post : string -> Buffer -> Settled ShrinkResponse;
  (** [axios.get(url, ...)], with the credential *)
  axios_get : string -> string -> Settled OutputResponse;
  (** does [fs.writeFile(path, data)] go through? *)
  fs_writeFile : string -> Buffer -> Settled unit;
  (** the files on disk when the program starts *)
  disk0 : gmap string Buffer;
}.

(** JavaScript truthiness of a string that may be [undefined]: [!x] holds for
    [undefined] and for the empty string. *)
Definition truthy (x : option string) : option string :=
  match x with
  | Some s => if bool_decide (s = "") then None else Some s
  | None => None
  end.

(** [status < 200 || status >= 300] *)
Definition non2xx (status : Z) : bool := (status <? 200)%Z || (300 <=? status)%Z.

(** One derivative task: the closure pushed on [tasks]. *)
Record Task := {
  t_src : string;
  t_ext : string;
  t_enc : Encoder;
  t_out : string;
}.

#[export] Instance Task_eq_dec : EqDecision Task.
Proof. solve_decision. Defined.

(** Where a derivative task is suspended, or how it ended. *)
Inductive Stage :=
| AwaitSharp
| AwaitPost (key : string) (buf : Buffer)
| AwaitGet (key : string) (outputUrl : string)
| AwaitWrite (compressed : Buffer)
| Resolved
| Rejected (e : Error).

Definition pending (s : Stage) : bool :=
  match s with
  | Resolved | Rejected _ => false
  | _ => true
  end.

Definition resolved (s : Stage) : bool :=
  match s with Resolved => true | _ => false end.

(** The entries pushed on [results]. *)
Record Result := {
  srcPath : string;
  outputs : list string;
  skipped : bool;
}.

(** The lines the program prints.  A line stands for its text: [LSkip f] for
    [SKIP: ${path.relative(ROOT, f)}], [LOk f outs] for the [OK:] line with
    the base names of [outs], [LError f e] for the [ERROR:] line with
    [e.message], [LDone ok n] for the closing tally [ok/n], [LFatal e] for the
    [console.error(e)] of the last lines of the script. *)
Inductive Line :=
| LNoTargets
| LInput (n : nat)
| LOutDir (dir : string)
| LSkip (f : string)
| LOk (f : string) (outs : list string)
| LError (f : string) (e : Error)
| LDone (okCount total : nat)
| LFatal (e : Error).

(** [console.error] writes to standard error, [console.log] to standard
    output. *)
Definition to_stderr (l : Line) : bool :=
  match l with LError _ _ | LFatal _ => true | _ => false end.

(** What happened, in order: a call of [convertAndCompressOne], or the
    delivery of an I/O completion to a task, which moved it from one stage to
    the next. *)
Inductive Event :=
| Called (f : string)
| Delivered (t : Task) (before after : Stage).

(** Where [main] is. *)
Inductive Control :=
| Awaiting (f : string) (tasks : list (Task * Stage)) (rest : list string)
    (results : list Result)
| Returned
| Threw (e : Error).

Record State := {
  disk : gmap string Buffer;
  console : list Line;
  history : list Event;
  control : Control;
  detached : list (Task * Stage);
}.

(** Which pending I/O completes next: that of the [i]-th task of the file
    [main] is waiting for, or that of the [i]-th task left behind by a file
    that already failed. *)
Inductive Pick :=
| Current (i : nat)
| Detached (i : nat).

(** ** The program *)

Section Program.

Context `{PathLib}.
Variable env : Env.

(** [const BEFORE_DIR = path.join(ROOT, "before")] *)
Definition BEFORE_DIR : string := join (ROOT env) "before".

(** [const AFTER_DIR = path.join(ROOT, "after")] *)
Definition AFTER_DIR : string := join (ROOT env) "after".

Definition isJpeg (ext : string) : bool :=
  bool_decide (ext = ".jpg") || bool_decide (ext = ".jpeg").

Definition isPng (ext : string) : bool := bool_decide (ext = ".png").

Definition ensureDirs : Settled unit := fs_mkdir env AFTER_DIR.

Definition baseNameNoExt (filePath : string) : string :=
  basename filePath (extname filePath).

Definition withExt (outDir base ext : string) : string :=
  join outDir (base ++ ext).

(** *** [tinifyCompressBuffer], run from call to settlement *)
Definition tinifyCompressBuffer (inputBuffer : Buffer) : Error + Buffer :=
  match truthy (API_KEY env) with
  | None => inl NoApiKey
  | Some key =>
      match axios_post env key inputBuffer with
      | RejectedBy r => inl (Raised Axios r)
      | Fulfilled shrinkRes =>
          if non2xx (shrink_status shrinkRes)
          then inl (ShrinkFailed (shrink_status shrinkRes) (shrink_message shrinkRes))
          else
            match truthy (shrink_location shrinkRes) with
            | None => inl NoLocation
            | Some outputUrl =>
                match axios_get env key outputUrl with
                | RejectedBy r => inl (Raised Axios r)
                | Fulfilled outRes =>
                    if non2xx (output_status outRes)
                    then inl (DownloadFailed (output_status outRes))
                    else inr (output_data outRes)
                end
            end
      end
  end.

(** *** [writeCompressedFile], run from call to settlement *)
Definition writeCompressedFile (outPath : string) (buffer : Buffer)
    (d : gmap string Buffer) : (Error + unit) * gmap string Buffer :=
  match tinifyCompressBuffer buffer with
  | inl e => (inl e, d)
  | inr compressed =>
      match fs_writeFile env outPath compressed with
      | RejectedBy r => (inl (Raised Fs r), d)
      | Fulfilled _ => (inr tt, <[outPath := compressed]> d)
      end
  end.

(** *** One derivative task, run from start to settlement: the body of the
    [async () => ...] closures of [convertAndCompressOne]. *)
Definition run_task (t : Task) (d : gmap string Buffer)
  : (Error + string) * gmap string Buffer :=
  match sharp env (t_src t) (t_enc t) with
  | RejectedBy r => (inl (Raised Sharp r), d)
  | Fulfilled buf =>
      match writeCompressedFile (t_out t) buf d with
      | (inl e, d') => (inl e, d')
      | (inr _, d') => (inr (t_out t), d')
      end
  end.

(** *** The same task, one suspension at a time

    [resume t s] is the code of task [t] that runs when the I/O awaited at
    stage [s] completes, up to the next [await]. *)
Definition resume (t : Task) (s : Stage) : Stage :=
  match s with
  | AwaitSharp =>
      match sharp env (t_src t) (t_enc t) with
      | RejectedBy r => Rejected (Raised Sharp r)
      | Fulfilled buf =>
          match truthy (API_KEY env) with
          | None => Rejected NoApiKey
          | Some key => AwaitPost key buf
          end
      end
  | AwaitPost key buf =>
      match axios_post env key buf with
      | RejectedBy r => Rejected (Raised Axios r)
      | Fulfilled shrinkRes =>
          if non2xx (shrink_status shrinkRes)
          then Rejected (ShrinkFailed (shrink_status shrinkRes) (shrink_message shrinkRes))
          else
            match truthy (shrink_location shrinkRes) with
            | None => Rejected NoLocation
            | Some outputUrl => AwaitGet key outputUrl
            end
      end
  | AwaitGet key outputUrl =>
      match axios_get env key outputUrl with
      | RejectedBy r => Rejected (Raised Axios r)
      | Fulfilled outRes =>
          if non2xx (output_status outRes)
          then Rejected (DownloadFailed (output_status outRes))
          else AwaitWrite (output_data outRes)
      end
  | AwaitWrite compressed =>
      match fs_writeFile env (t_out t) compressed with
      | RejectedBy r => Rejected (Raised Fs r)
      | Fulfilled _ => Resolved
      end
  | Resolved => Resolved
  | Rejected e => Rejected e
  end.

(** The bytes that reach the disk when the I/O awaited at stage [s]
    completes: those of a [fs.writeFile] that went through. *)
Definition written (t : Task) (s : Stage) : option Buffer :=
  match s with
  | AwaitWrite compressed =>
      match fs_writeFile env (t_out t) compressed with
      | RejectedBy _ => None
      | Fulfilled _ => Some compressed
      end
  | _ => None
  end.

Definition effect (t : Task) (s : Stage) (d : gmap string Buffer) : gmap string Buffer :=
  match written t s with
  | Some compressed => <[t_out t := compressed]> d
  | None => d
  end.

(** How a task ends, whatever the schedule: a task passes through at most
    four suspensions. *)
Definition settle (t : Task) (s : Stage) : Stage :=
  resume t (resume t (resume t (resume t s))).

Definition fate (t : Task) : Stage := settle t AwaitSharp.

(** *** [convertAndCompressOne], up to its [Promise.all]

    The tasks it starts, or [None] when it returns
    [{ srcPath, outputs: [], skipped: true }] at once. *)
Definition convertAndCompressOne (srcPath : string) : option (list Task) :=
  let ext := toLowerCase (extname srcPath) in
  let base := baseNameNoExt srcPath in
  if isPng ext then
    let jpgPath := withExt AFTER_DIR base ".jpg" in
    let webpPath := withExt AFTER_DIR base ".webp" in
    Some [ {| t_src := srcPath; t_ext := ".jpg"; t_enc := jpeg 90 true; t_out := jpgPath |};
           {| t_src := srcPath; t_ext := ".webp"; t_enc := webp 85; t_out := webpPath |} ]
  else if isJpeg ext then
    let webpPath := withExt AFTER_DIR base ".webp" in
    Some [ {| t_src := srcPath; t_ext := ".webp"; t_enc := webp 85; t_out := webpPath |} ]
  else None.

(** The derivatives planned for a source file: target extension and
    encoder options, in the order the tasks are pushed. *)
Definition planned (srcPath : string) : list (string * Encoder) :=
  match convertAndCompressOne srcPath with
  | Some tasks => map (fun t => (t_ext t, t_enc t)) tasks
  | None => []
  end.

(** *** The enumeration at the head of [main] *)

(** [Promise.all] over promises that are already settled.  When several
    reject, the one that rejects first in time wins; the model takes the
    first of the list, and no property below depends on which. *)
Fixpoint promise_all {A : Type} (l : list (Settled A)) : Settled (list A) :=
  match l with
  | [] => Fulfilled []
  | RejectedBy r :: _ => RejectedBy r
  | Fulfilled a :: rest =>
      match promise_all rest with
      | RejectedBy r => RejectedBy r
      | Fulfilled others => Fulfilled (a :: others)
      end
  end.

(** [[...new Set(xs)]]: the first occurrence of each element, in order.
    [seen] is the set built so far, latest insertion first. *)
Fixpoint spread_set (seen : list string) (xs : list string) : list string :=
  match xs with
  | [] => reverse seen
  | x :: r => if decide (x ∈ seen) then spread_set seen r else spread_set (x :: seen) r
  end.

Definition patterns : list string :=
  [ join BEFORE_DIR "**/*.png"; join BEFORE_DIR "**/*.jpg"; join BEFORE_DIR "**/*.jpeg" ].

(** [await Promise.all(patterns.map((p) => glob(p)))] *)
Definition filesNested : Settled (list (list string)) :=
  promise_all (map (glob env) patterns).

(** [const files = [...new Set(filesNested.flat())]]; empty when the
    enumeration rejects and [main] never gets there. *)
Definition files : list string :=
  match filesNested with
  | Fulfilled nested => spread_set [] (concat nested)
  | RejectedBy _ => []
  end.

(** *** State updates *)
Definition say (l : Line) (st : State) : State :=
  {| disk := disk st; console := console st ++ [l]; history := history st;
     control := control st; detached := detached st |}.

Definition record (e : Event) (st : State) : State :=
  {| disk := disk st; console := console st; history := history st ++ [e];
     control := control st; detached := detached st |}.

Definition goto (c : Control) (st : State) : State :=
  {| disk := disk st; console := console st; history := history st;
     control := c; detached := detached st |}.

Definition detach (ts : list (Task * Stage)) (st : State) : State :=
  {| disk := disk st; console := console st; history := history st;
     control := control st; detached := detached st ++ ts |}.

Definition redetach (i : nat) (ts : Task * Stage) (st : State) : State :=
  {| disk := disk st; console := console st; history := history st;
     control := control st; detached := <[i := ts]> (detached st) |}.

(** The delivery of the I/O completion task [t] awaits at stage [s]: its
    effect on the disk, and its trace. *)
Definition deliver (t : Task) (s : Stage) (st : State) : State :=
  {| disk := effect t s (disk st); console := console st;
     history := history st ++ [Delivered t s (resume t s)];
     control := control st; detached := detached st |}.

(** [results.filter((r) => !r.skipped && r.outputs.length).length] *)
Definition okCount (results : list Result) : nat :=
  length (List.filter (fun r => negb (skipped r) && negb (length (outputs r) =? 0)%nat)
            results).

(** *** The [for (const f of files)] loop of [main]

    From the head of the loop to the next suspension: files that are
    skipped return at once; the first file that starts tasks suspends
    [main] on their [Promise.all]; after the last file comes the tally. *)
Fixpoint loop (todo : list string) (results : list Result) (st : State) : State :=
  match todo with
  | [] => goto Returned (say (LDone (okCount results) (length files)) st)
  | f :: rest =>
      let st := record (Called f) st in
      match convertAndCompressOne f with
      | None =>
          let r := {| srcPath := f; outputs := []; skipped := true |} in
          loop rest (results ++ [r]) (say (LSkip f) st)
      | Some tasks =>
          goto (Awaiting f (map (fun t => (t, AwaitSharp)) tasks) rest results) st
      end
  end.

Definition boot : State :=
  {| disk := disk0 env; console := []; history := []; control := Returned; detached := [] |}.

(** *** [main], from its call to its first suspension on derivative tasks
    (or to its end), with the [.catch] of the last lines of the script.

    [clearBeforeDir] has no part in the model: its only call, at the end of
    [main], is commented out. *)
Definition main : State :=
  match ensureDirs with
  | RejectedBy r => goto (Threw (Raised Fs r)) (say (LFatal (Raised Fs r)) boot)
  | Fulfilled _ =>
      match filesNested with
      | RejectedBy r => goto (Threw (Raised Glob r)) (say (LFatal (Raised Glob r)) boot)
      | Fulfilled _ =>
          if (length files =? 0)%nat then goto Returned (say LNoTargets boot)
          else loop files [] (say (LOutDir AFTER_DIR) (say (LInput (length files)) boot))
      end
  end.

(** *** The event loop

    [fire p st]: the I/O completion picked by [p] is delivered, and the
    code waiting for it runs until everything is suspended again.  [None]
    when [p] picks nothing that is pending.

    A task left behind runs on like any other.  Nobody reads its result:
    [Promise.all] has handlers on every promise it was given, so a later
    rejection is handled and dropped, and a later write still happens. *)
Definition fire (p : Pick) (st : State) : option State :=
  match p with
  | Detached i =>
      match detached st !! i with
      | Some (t, s) =>
          if pending s then Some (redetach i (t, resume t s) (deliver t s st))
          else None
      | None => None
      end
  | Current i =>
      match control st with
      | Awaiting f tasks rest results =>
          match tasks !! i with
          | Some (t, s) =>
              if pending s then
                let st := deliver t s st in
                let tasks := <[i := (t, resume t s)]> tasks in
                match resume t s with
                | Rejected e =>
                    (* [Promise.all] rejects; [catch (e)] of the loop.  The
                       tasks that are still pending stay in flight. *)
                    Some (loop rest results
                            (say (LError f e)
                               (detach (List.filter (fun ts => pending ts.2) tasks) st)))
                | _ =>
                    if forallb (fun ts => resolved ts.2) tasks then
                      (* [Promise.all] resolves with the tasks' paths *)
                      let r := {| srcPath := f; outputs := map (fun ts => t_out ts.1) tasks;
                                  skipped := false |} in
                      Some (loop rest (results ++ [r]) (say (LOk f (outputs r)) st))
                    else Some (goto (Awaiting f tasks rest results) st)
                end
              else None
          | None => None
          end
      | _ => None
      end
  end.

(** A run: the completions of a schedule, delivered one after the other. *)
Fixpoint run (sched : list Pick) (st : State) : option State :=
  match sched with
  | [] => Some st
  | p :: rest =>
      match fire p st with
      | Some st' => run rest st'
      | None => None
      end
  end.

(** Nothing is pending any more among the tasks left behind. *)
Definition quiescent (st : State) : bool :=
  forallb (fun ts => negb (pending ts.2)) (detached st).

(** The exit code of the process, once it has one: 1 from
    [process.exit(1)] in the [.catch] of [main]; 0 when [main] has returned
    and the event loop has nothing left to wait for. *)
Definition exit_code (st : State) : option Z :=
  match control st with
  | Threw _ => Some 1%Z
  | Returned => if quiescent st then Some 0%Z else None
  | Awaiting _ _ _ _ => None
  end.

(** The schedule that always delivers the first pending completion:
    current tasks first, from the left, then the tasks left behind. *)
Fixpoint first_pending (i : nat) (ts : list (Task * Stage)) : option nat :=
  match ts with
  | [] => None
  | (_, s) :: r => if pending s then Some i else first_pending (S i) r
  end.

Definition next_pick (st : State) : option Pick :=
  match control st with
  | Awaiting _ tasks _ _ =>
      match first_pending 0 tasks with
      | Some i => Some (Current i)
      | None => Detached <$> first_pending 0 (detached st)
      end
  | _ => Detached <$> first_pending 0 (detached st)
  end.

Fixpoint drive (fuel : nat) (st : State) : list Pick * State :=
  match fuel with
  | O => ([], st)
  | S fuel' =>
      match next_pick st with
      | None => ([], st)
      | Some p =>
          match fire p st with
          | None => ([], st)
          | Some st' => let '(ps, st'') := drive fuel' st' in (p :: ps, st'')
          end
      end
  end.

(** An upper bound on the completions still to be delivered. *)
Definition stage_weight (s : Stage) : nat :=
  match s with
  | AwaitSharp => 4
  | AwaitPost _ _ => 3
  | AwaitGet _ _ => 2
  | AwaitWrite _ => 1
  | Resolved | Rejected _ => 0
  end.

Definition tasks_weight (ts : list (Task * Stage)) : nat :=
  sum_list_with (fun ts => stage_weight ts.2) ts.

Definition todo_weight (todo : list string) : nat :=
  sum_list_with (fun f => 4 * length (default [] (convertAndCompressOne f))) todo.

Definition potential (st : State) : nat :=
  tasks_weight (detached st) +
  match control st with
  | Awaiting _ tasks rest _ => tasks_weight tasks + todo_weight rest
  | _ => 0
  end.

End Program.

(** ** Concrete worlds

    Small environments to run the model on, over the POSIX path functions.
    The working directory is [/w]; [glob] answers from a fixed listing of
    [/w/before], by the extension of the pattern. *)
Module Worlds.

Definition glob_of (listing : list string) (pattern : string) : Settled (list string) :=
  Fulfilled
    (List.filter (fun f => Posix.ends_with (Posix.chars (extname pattern)) (Posix.chars f))
       listing).

(** The encoder returns one byte that tells the source and the
    derivative: an upper-case letter for a JPEG, the lower-case one for a
    WebP. *)
Definition encode (src : string) (enc : Encoder) : Settled Buffer :=
  if bool_decide (src = "/w/before/corrupt.png")
  then RejectedBy "Input file contains unsupported image format"
  else
    let tag := if bool_decide (src = "/w/before/a.png") then 1%nat
               else if bool_decide (src = "/w/before/a.jpg") then 2%nat
               else if bool_decide (src = "/w/before/b.jpg") then 3%nat
               else 4%nat in
    Fulfilled [match enc, tag with
               | jpeg _ _, 1%nat => Byte.x41 | jpeg _ _, 2%nat => Byte.x42
               | jpeg _ _, 3%nat => Byte.x43 | jpeg _ _, _ => Byte.x44
               | webp _, 1%nat => Byte.x61 | webp _, 2%nat => Byte.x62
               | webp _, 3%nat => Byte.x63 | webp _, _ => Byte.x64
               end].

(** The service answers 201 with a location that names the upload, except
    for the uploads in [refused], which it answers with 429. *)
Definition location_of (body : Buffer) : string :=
  match body with
  | [b] => "https://api.tinify.com/output/" ++ String.String (ascii_of_nat (Byte.to_nat b)) ""
  | _ => "https://api.tinify.com/output/"
  end.

Definition post (refused : list Buffer) (key : string) (body : Buffer)
  : Settled ShrinkResponse :=
  if bool_decide (body ∈ refused)
  then Fulfilled {| shrink_status := 429; shrink_location := None;
                    shrink_message := "Too many requests" |}
  else Fulfilled {| shrink_status := 201; shrink_location := Some (location_of body);
                    shrink_message := "" |}.

(** The compressed result carries the byte of the upload it comes from,
    after the mark [xcc]. *)
Definition get (key : string) (url : string) : Settled OutputResponse :=
  match last (Posix.chars url) with
  | Some c =>
      if Ascii.eqb c Posix.slash then Fulfilled {| output_status := 404; output_data := [] |}
      else Fulfilled {| output_status := 200;
                        output_data := [Byte.xcc; default Byte.x00 (Byte.of_nat (nat_of_ascii c))] |}
  | None => Fulfilled {| output_status := 404; output_data := [] |}
  end.

Definition world (key : option string) (listing : list string) (refused : list Buffer) : Env :=
  {| API_KEY := key;
     ROOT := "/w";
     fs_mkdir := fun _ => Fulfilled tt;
     glob := glob_of listing;
     sharp := encode;
     axios_post := post refused;
     axios_get := get;
     fs_writeFile := fun _ _ => Fulfilled tt;
     disk0 := ∅ |}.

(** Three pictures; the service refuses the WebP made from [b.jpg]. *)
Definition one_refused : Env :=
  world (Some "k3y") ["/w/before/a.png"; "/w/before/b.jpg"; "/w/before/c.png"]
    [[Byte.x63]].

(** Two pictures that share the base name [a]; the service refuses the JPEG
    made from [a.png]. *)
Definition same_base : Env :=
  world (Some "k3y") ["/w/before/a.png"; "/w/before/a.jpg"] [[Byte.x41]].

(** The same two pictures, nothing refused. *)
Definition same_base_ok : Env :=
  world (Some "k3y") ["/w/before/a.png"; "/w/before/a.jpg"] [].

(** No credential; one of the two pictures cannot be decoded. *)
Definition no_key : Env :=
  world None ["/w/before/corrupt.png"; "/w/before/b.jpg"] [].

(** An empty input directory. *)
Definition empty_dir : Env := world (Some "k3y") [] [].

(** The output directory cannot be created. *)
Definition no_after : Env :=
  {| API_KEY := Some "k3y";
     ROOT := "/w";
     fs_mkdir := fun _ => RejectedBy "EACCES: permission denied, mkdir";
     glob := glob_of ["/w/before/a.png"];
     sharp := encode;
     axios_post := post [];
     axios_get := get;
     fs_writeFile := fun _ _ => Fulfilled tt;
     disk0 := ∅ |}.

(** The network is down: [axios.post] rejects. *)
Definition offline : Env :=
  {| API_KEY := Some "k3y";
     ROOT := "/w";
     fs_mkdir := fun _ => Fulfilled tt;
     glob := glob_of ["/w/before/a.png"];
     sharp := encode;
     axios_post := fun _ _ => RejectedBy "getaddrinfo ENOTFOUND api.tinify.com";
     axios_get := get;
     fs_writeFile := fun _ _ => Fulfilled tt;
     disk0 := ∅ |}.

(** The derivative tasks of the two pictures of [same_base]. *)
Definition a_png_jpg : Task :=
  {| t_src := "/w/before/a.png"; t_ext := ".jpg"; t_enc := jpeg 90 true;
     t_out := "/w/after/a.jpg" |}.

Definition a_png_webp : Task :=
  {| t_src := "/w/before/a.png"; t_ext := ".webp"; t_enc := webp 85;
     t_out := "/w/after/a.webp" |}.

Definition a_jpg_webp : Task :=
  {| t_src := "/w/before/a.jpg"; t_ext := ".webp"; t_enc := webp 85;
     t_out := "/w/after/a.webp" |}.

(** A schedule for [same_base]: the JPEG of [a.png] is encoded, then its
    upload is refused, while the WebP of [a.png] is still being encoded;
    that encoding completes next. *)
Definition overlap : list Pick := [Current 0; Current 0; Detached 0].

(** The same beginning; then the WebP of [a.jpg] goes all the way to the
    disk, and only then the WebP of [a.png] does. *)
Definition overtaking : list Pick :=
  [Current 0; Current 0;
   Current 0; Current 0; Current 0; Current 0;
   Detached 0; Detached 0; Detached 0; Detached 0].

(** The run of the first-pending schedule, to its end. *)
Definition finish (env : Env) : list Pick * State := drive env 64 (main env).

End Worlds.

Local Open Scope list_scope.

(** ** What is observed of a run *)

(** How the processing of one source file ends. *)
Inductive Verdict := Skipped | Succeeded | Failed.

#[export] Instance Verdict_eq_dec : EqDecision Verdict.
Proof. solve_decision. Defined.

(** The tally the specification describes: how many source files succeeded,
    were skipped, failed. *)
Record BatchSummary := {
  succeeded : nat;
  skipped_files : nat;
  failed : nat;
}.

Section Observations.

Context `{PathLib}.
Variable env : Env.

(** The set-up phase of [main]: creating the output directory and listing
    the input directory. *)
Definition setup_ok : Prop :=
  (exists u, ensureDirs env = Fulfilled u) /\ (exists nested, filesNested env = Fulfilled nested).

Definition setup_failed : Prop :=
  (exists r, ensureDirs env = RejectedBy r) \/ (exists r, filesNested env = RejectedBy r).

(** The states a run can be in, and the runs that are over. *)
Definition reachable (st : State) : Prop :=
  exists sched, run env sched (main env) = Some st.

Definition exited (st : State) : Prop := is_Some (exit_code st).

(** The source files [convertAndCompressOne] was called on, in order. *)
Definition calls (h : list Event) : list string :=
  omap (fun e => match e with Called f => Some f | _ => None end) h.

(** The [fs.writeFile] calls that went through, in order. *)
Definition writes (h : list Event) : list (Task * Buffer) :=
  omap (fun e => match e with
                 | Delivered t (AwaitWrite c) Resolved => Some (t, c)
                 | _ => None
                 end) h.

(** The per-file status lines of the console, in order. *)
Definition line_verdict (l : Line) : option (string * Verdict) :=
  match l with
  | LSkip f => Some (f, Skipped)
  | LOk f _ => Some (f, Succeeded)
  | LError f _ => Some (f, Failed)
  | _ => None
  end.

Definition reports (c : list Line) : list (string * Verdict) := omap line_verdict c.

(** The tally lines of the console. *)
Definition tallies (c : list Line) : list (nat * nat) :=
  omap (fun l => match l with LDone ok n => Some (ok, n) | _ => None end) c.

(** The entries [main] has pushed on [results] when it has printed the
    status lines [c]. *)
Definition results_of (c : list Line) : list Result :=
  omap (fun l => match l with
                 | LSkip f => Some {| srcPath := f; outputs := []; skipped := true |}
                 | LOk f outs => Some {| srcPath := f; outputs := outs; skipped := false |}
                 | _ => None
                 end) c.

(** The tasks of a source file, and the tasks of the batch. *)
Definition tasks_of (f : string) : list Task := default [] (convertAndCompressOne env f).

Definition genuine (t : Task) : Prop := exists f, f ∈ files env /\ t ∈ tasks_of f.

(** A source file qualifies when it is a PNG or a JPEG by its extension. *)
Definition qualifies (f : string) : Prop := planned env f <> [].

(** How a task ends when it is run alone: with its output path, or with an
    error. *)
Definition outcome (t : Task) : Error + string := (run_task env t (disk0 env)).1.

Definition task_succeeds (t : Task) : bool :=
  match outcome t with inr _ => true | inl _ => false end.

(** How a source file ends: skipped when it starts no task, succeeded when
    all its tasks succeed, failed otherwise. *)
Definition verdict (f : string) : Verdict :=
  match convertAndCompressOne env f with
  | None => Skipped
  | Some tasks => if forallb task_succeeds tasks then Succeeded else Failed
  end.

Definition count_verdict (v : Verdict) (fs : list string) : nat :=
  length (List.filter (fun f => bool_decide (verdict f = v)) fs).

(** The tally of the specification, for a batch. *)
Definition summary_of (fs : list string) : BatchSummary :=
  {| succeeded := count_verdict Succeeded fs;
     skipped_files := count_verdict Skipped fs;
     failed := count_verdict Failed fs |}.

(** A stage a task can be in: one reached from its start by deliveries. *)
Definition on_path (t : Task) (s : Stage) : Prop :=
  exists n, s = Nat.iter n (resume env t) AwaitSharp.

(** The bytes [b] at path [p] are the compressed form of a derivative: the
    remote compressor returned them for what the encoder made of a source
    file of the batch. *)
Definition compressed_output (p : string) (b : Buffer) : Prop :=
  exists t buf,
    genuine t /\ p = t_out t /\
    sharp env (t_src t) (t_enc t) = Fulfilled buf /\
    tinifyCompressBuffer env buf = inr b.

(** The kinds of failure the specification lists for the remote
    compressor, in its words. *)
Inductive compress_contract (inputBuffer : Buffer) : Error + Buffer -> Prop :=
| contract_configuration e :
    truthy (API_KEY env) = None ->
    kind_of e = ConfigurationError ->
    compress_contract inputBuffer (inl e)
| contract_upload key res e :
    truthy (API_KEY env) = Some key ->
    axios_post env key inputBuffer = Fulfilled res ->
    non2xx (shrink_status res) = true \/ truthy (shrink_location res) = None ->
    kind_of e = UploadError ->
    compress_contract inputBuffer (inl e)
| contract_download key res url out e :
    truthy (API_KEY env) = Some key ->
    axios_post env key inputBuffer = Fulfilled res ->
    non2xx (shrink_status res) = false ->
    truthy (shrink_location res) = Some url ->
    axios_get env key url = Fulfilled out ->
    non2xx (output_status out) = true ->
    kind_of e = DownloadError ->
    compress_contract inputBuffer (inl e)
| contract_success key res url out :
    truthy (API_KEY env) = Some key ->
    axios_post env key inputBuffer = Fulfilled res ->
    non2xx (shrink_status res) = false ->
    truthy (shrink_location res) = Some url ->
    axios_get env key url = Fulfilled out ->
    non2xx (output_status out) = false ->
    compress_contract inputBuffer (inr (output_data out)).

(** The one failure the contract leaves out: the HTTP request itself
    rejects, and there is no response to look at. *)
Definition request_rejected (inputBuffer : Buffer) (r : string) : Prop :=
  exists key,
    truthy (API_KEY env) = Some key /\
    (axios_post env key inputBuffer = RejectedBy r \/
     exists res url,
       axios_post env key inputBuffer = Fulfilled res /\
       non2xx (shrink_status res) = false /\
       truthy (shrink_location res) = Some url /\
       axios_get env key url = RejectedBy r).

End Observations.

(** ** The invariant of the runs

    What holds of every state of a run whose set-up went through and whose
    batch is not empty. *)

Section Invariant.

Context `{PathLib}.
Variable env : Env.

Definition header : list Line := [LInput (length (files env)); LOutDir (AFTER_DIR env)].

Definition line_ok (f : string) (l : Line) : Prop :=
  match convertAndCompressOne env f with
  | None => l = LSkip f
  | Some ts =>
      (forallb (task_succeeds env) ts = true /\ l = LOk f (map t_out ts)) \/
      (exists t e, t ∈ ts /\ outcome env t = inl e /\ l = LError f e)
  end.

Definition task_ok (ts : Task * Stage) : Prop :=
  genuine env ts.1 /\ on_path env ts.1 ts.2.

Definition disk_ok (d : gmap string Buffer) : Prop :=
  forall p b, d !! p = Some b -> disk0 env !! p = Some b \/ compressed_output env p b.

Definition event_ok (e : Event) : Prop :=
  match e with
  | Called f => f ∈ files env
  | Delivered t s s' => genuine env t /\ on_path env t s /\ pending s = true /\ s' = resume env t s
  end.

Definition control_ok (st : State) (finished : list string) (lines : list Line) : Prop :=
  match control st with
  | Awaiting f tasks rest results =>
      files env = finished ++ f :: rest /\
      console st = header ++ lines /\
      calls (history st) = finished ++ [f] /\
      results = results_of lines /\
      convertAndCompressOne env f = Some (map fst tasks) /\
      Forall (fun ts => on_path env ts.1 ts.2 /\ forall e, ts.2 <> Rejected e) tasks /\
      forallb (fun ts => resolved ts.2) tasks = false
  | Returned =>
      files env = finished /\
      console st = header ++ lines ++ [LDone (okCount (results_of lines)) (length (files env))] /\
      calls (history st) = finished
  | Threw _ => False
  end.

Definition Inv (st : State) : Prop :=
  exists finished lines,
    Forall2 line_ok finished lines /\
    control_ok st finished lines /\
    Forall task_ok (detached st) /\
    disk_ok (disk st) /\
    Forall event_ok (history st).

(** Every I/O completion of [h] is delivered to a task of the file
    [convertAndCompressOne] was last called on, or to a task of a file called
    earlier that failed; [called] lists the files called before [h]. *)
Fixpoint in_turn (called : list string) (h : list Event) : Prop :=
  match h with
  | [] => True
  | Called f :: r => in_turn (called ++ [f]) r
  | Delivered t _ _ :: r =>
      (last called = Some (t_src t) \/
       (t_src t ∈ called /\ verdict env (t_src t) = Failed)) /\
      in_turn called r
  end.

(** The tasks left behind belong to files that were called and failed. *)
Definition left_behind (st : State) : Prop :=
  Forall (fun ts => t_src ts.1 ∈ calls (history st) /\ verdict env (t_src ts.1) = Failed)
    (detached st).

End Invariant.

(** ** The disk, and two sentences of the specification in its own words *)

(** The disk after the writes [ws], in order, on the disk [d]. *)
Definition replay (d : gmap string Buffer) (ws : list (Task * Buffer)) : gmap string Buffer :=
  foldl (fun d w => <[t_out w.1 := w.2]> d) d ws.

(** The numbers a line of the console carries. *)
Definition line_numbers (l : Line) : list nat :=
  match l with
  | LInput n => [n]
  | LDone ok n => [ok; n]
  | _ => []
  end.

(** The console carries a summary made of the counts of succeeded, skipped
    and failed source files: some line holds these three numbers. *)
Definition emits_summary (c : list Line) (s : BatchSummary) : Prop :=
  exists l, l ∈ c /\ line_numbers l = [succeeded s; skipped_files s; failed s].

(** Every qualifying file of the batch is reported as failed with an error
    of the configuration kind. *)
Definition all_fail_for_configuration `{PathLib} (env : Env) (st : State) : Prop :=
  forall f, f ∈ files env -> qualifies env f ->
    exists e, LError f e ∈ console st /\ kind_of e = ConfigurationError.

(** ** More to observe of the code *)

Section Coverage.

Context `{PathLib}.
Variable env : Env.

(** The derivative tasks of the whole batch, file after file. *)
Definition batch_tasks : list Task := concat (map (tasks_of env) (files env)).

(** The status line of a source file, by how the file ends. *)
Definition status_of (f : string) (l : Line) : Prop :=
  match verdict env f with
  | Skipped => l = LSkip f
  | Succeeded => l = LOk f (map t_out (tasks_of env f))
  | Failed => exists t e, t ∈ tasks_of env f /\ outcome env t = inl e /\ l = LError f e
  end.

(** The tasks of a file that fail all fail with one and the same error. *)
Definition one_error (f : string) : Prop :=
  forall t1 t2 e1 e2,
    t1 ∈ tasks_of env f -> t2 ∈ tasks_of env f ->
    outcome env t1 = inl e1 -> outcome env t2 = inl e2 -> e1 = e2.

(** The source file an [ERROR] line is about. *)
Definition error_file (l : Line) : option string :=
  match l with LError f _ => Some f | _ => None end.

Definition is_error (l : Line) : bool :=
  match l with LError _ _ => true | _ => false end.

(** The tasks of a list that still wait for an I/O completion. *)
Definition in_flight (ts : list (Task * Stage)) : nat :=
  length (List.filter (fun ts => pending ts.2) ts).

(** The file [main] is waiting for, if any. *)
Definition awaited (st : State) : list string :=
  match control st with
  | Awaiting f _ _ _ => [f]
  | _ => []
  end.

(** The tasks [main] is waiting for, if any. *)
Definition current (st : State) : list (Task * Stage) :=
  match control st with
  | Awaiting _ tasks _ _ => tasks
  | _ => []
  end.

(** What a task holds when it is suspended comes from where the code says:
    the upload body from [sharp], the download URL from the answer to the
    upload, the bytes to write from the answer to the download; both requests
    carry the configured credential. *)
Definition stage_data (t : Task) (s : Stage) : Prop :=
  match s with
  | AwaitPost key buf =>
      truthy (API_KEY env) = Some key /\
      sharp env (t_src t) (t_enc t) = Fulfilled buf
  | AwaitGet key outputUrl =>
      truthy (API_KEY env) = Some key /\
      exists buf res,
        sharp env (t_src t) (t_enc t) = Fulfilled buf /\
        axios_post env key buf = Fulfilled res /\
        non2xx (shrink_status res) = false /\
        truthy (shrink_location res) = Some outputUrl
  | AwaitWrite compressed =>
      exists key buf res outputUrl out,
        truthy (API_KEY env) = Some key /\
        sharp env (t_src t) (t_enc t) = Fulfilled buf /\
        axios_post env key buf = Fulfilled res /\
        truthy (shrink_location res) = Some outputUrl /\
        axios_get env key outputUrl = Fulfilled out /\
        non2xx (output_status out) = false /\
        compressed = output_data out
  | _ => True
  end.

(** No two tasks of the batch write to the path [p]. *)
Definition uncontended (p : string) : Prop :=
  forall t1 t2, genuine env t1 -> genuine env t2 -> t_out t1 = p -> t_out t2 = p -> t1 = t2.

(** An [OK] line lists the output paths of the tasks of its file, and each of
    these tasks has its write in the history; so has every task [main] is
    waiting for that has resolved; and [main] waits for the tasks of the file
    it called. *)
Definition recorded (st : State) : Prop :=
  (forall f outs, LOk f outs ∈ console st ->
     outs = map t_out (tasks_of env f) /\
     forall t, t ∈ tasks_of env f -> exists c, (t, c) ∈ writes (history st)) /\
  (forall t, (t, Resolved) ∈ current st -> exists c, (t, c) ∈ writes (history st)) /\
  (forall f, f ∈ awaited st -> tasks_of env f = map fst (current st)).

(** The tasks in flight are few: at most two for the file [main] waits for,
    and at most one more for each [ERROR] line printed. *)
Definition few_in_flight (st : State) : Prop :=
  length (current st) <= 2 /\
  in_flight (detached st) <= length (List.filter is_error (console st)).

(** Task [t] has run to its end in [h]: its write went through, or one of its
    steps was rejected. *)
Definition settled_in (h : list Event) (t : Task) : Prop :=
  (exists c, (t, c) ∈ writes h) \/ (exists s e, Delivered t s (Rejected e) ∈ h).

(** Every task of every file [convertAndCompressOne] was called on is
    accounted for: [main] waits for it, or it was left behind and is still in
    flight, or it has run to its end; and a task [main] waits for that is not
    in flight has written its file. *)
Definition accounted (st : State) : Prop :=
  (forall t s, (t, s) ∈ current st ->
     pending s = true \/ exists c, (t, c) ∈ writes (history st)) /\
  (forall f t, f ∈ calls (history st) -> t ∈ tasks_of env f ->
     t ∈ map fst (current st) \/
     (exists s, (t, s) ∈ detached st /\ pending s = true) \/
     settled_in (history st) t).

End Coverage.

(** ** More worlds and schedules *)

Module Schedules.

(** The state a schedule leads to; the first state when the schedule picks
    something that is not pending. *)
Definition after (env : Env) (sched : list Pick) : State :=
  default (main env) (run env sched (main env)).

(** For [Worlds.same_base]: as [Worlds.overtaking], but the WebP of [a.png],
    left behind, goes all the way to the disk before the WebP of [a.jpg]
    starts. *)
Definition sibling_first : list Pick :=
  [Current 0; Current 0;
   Detached 0; Detached 0; Detached 0; Detached 0;
   Current 0; Current 0; Current 0; Current 0].

(** An encoder that cannot make a WebP. *)
Definition encode_no_webp (src : string) (enc : Encoder) : Settled Buffer :=
  match enc with
  | webp _ => RejectedBy "webp: unsupported"
  | jpeg _ _ => Worlds.encode src enc
  end.

(** One picture, both of whose derivatives fail, each in its own way: the
    WebP cannot be encoded, the upload of the JPEG is refused. *)
Definition two_errors : Env :=
  {| API_KEY := Some "k3y";
     ROOT := "/w";
     fs_mkdir := fun _ => Fulfilled tt;
     glob := Worlds.glob_of ["/w/before/a.png"];
     sharp := encode_no_webp;
     axios_post := Worlds.post [[Byte.x41]];
     axios_get := Worlds.get;
     fs_writeFile := fun _ _ => Fulfilled tt;
     disk0 := ∅ |}.

(** The JPEG is encoded and refused before the encoding of the WebP
    completes; or the encoding of the WebP completes first. *)
Definition upload_first : list Pick := [Current 0; Current 0; Detached 0].

Definition encoder_first : list Pick := [Current 1; Detached 0; Detached 0].

End Schedules.

(** ** Properties *)

(** *** The POSIX path functions on samples *)

Example posix_extname_samples :
  map extname ["/w/before/a.png"; "/w/before/x/photo.JPG"; "/w/before/.png";
               "/w/before/archive.tar.gz"; "/w/before/notes"; "a."; ".."; "..png"; "..."]
  = [".png"; ".JPG"; ""; ".gz"; ""; "."; ""; ".png"; "."].
Proof. vm_compute. reflexivity. Qed.

Example posix_basename_samples :
  map (fun p => basename p (extname p))
      ["/w/before/a.png"; "/w/before/x/photo.JPG"; "/w/before/.png"; "/w/before/a.b.jpeg"]
  = ["a"; "photo"; ".png"; "a.b"].
Proof. vm_compute. reflexivity. Qed.

Example posix_join_samples :
  [join "/w" "after"; join "/w/after" "a.webp"; join "/w/x/../after/" "./a.jpg"; join "" "after"]
  = ["/w/after"; "/w/after/a.webp"; "/w/after/a.jpg"; "after"].
Proof. vm_compute. reflexivity. Qed.

(** *** Tasks, one suspension at a time *)

Section Tasks.

Context `{PathLib}.
Variable env : Env.

Lemma resume_final t s : pending s = false -> resume env t s = s.
Proof. by destruct s. Qed.

Lemma resume_weight t s :
  pending s = true -> stage_weight (resume env t s) < stage_weight s.
Proof.
  destruct s; simpl; try done; intros _; repeat case_match; simpl; lia.
Qed.

Lemma weight_final s : stage_weight s = 0 <-> pending s = false.
Proof. destruct s; simpl; split; (done || lia). Qed.

Lemma weight_bound s : stage_weight s <= 4.
Proof. destruct s; simpl; lia. Qed.

Lemma iter_resume_final t n s :
  stage_weight s <= n -> pending (Nat.iter n (resume env t) s) = false.
Proof.
  revert s. induction n as [|n IH]; intros s Hs.
  - apply weight_final. simpl. lia.
  - rewrite Nat.iter_succ_r. apply IH.
    destruct (pending s) eqn:E.
    + pose proof (resume_weight t s E). lia.
    + rewrite resume_final by done. apply weight_final in E. lia.
Qed.

Lemma iter_resume_fixed t n s :
  pending s = false -> Nat.iter n (resume env t) s = s.
Proof.
  intros Hs. induction n as [|n IH]; [done|].
  simpl. rewrite IH. by apply resume_final.
Qed.

Lemma fate_final t : pending (fate env t) = false.
Proof. apply (iter_resume_final t 4). simpl. lia. Qed.

Lemma on_path_start t : on_path env t AwaitSharp.
Proof. by exists 0. Qed.

Lemma on_path_resume t s : on_path env t s -> on_path env t (resume env t s).
Proof. intros [n ->]. by exists (S n). Qed.

(** A task that has settled has settled the way [fate] tells. *)
Lemma on_path_final t s :
  on_path env t s -> pending s = false -> s = fate env t.
Proof.
  intros [n ->] Hfin.
  destruct (decide (n <= 4)) as [Hle|Hgt].
  - replace (fate env t) with (Nat.iter (4 - n) (resume env t)
                                 (Nat.iter n (resume env t) AwaitSharp)).
    + by rewrite (iter_resume_fixed t (4 - n) _ Hfin).
    + rewrite <- Nat.iter_add. replace (4 - n + n) with 4 by lia. reflexivity.
  - replace n with ((n - 4) + 4) by lia.
    rewrite Nat.iter_add. apply iter_resume_fixed, fate_final.
Qed.

(** The stepwise task and the task run in one go end the same way. *)
Lemma fate_outcome t :
  fate env t = match outcome env t with
               | inr _ => Resolved
               | inl e => Rejected e
               end.
Proof.
  unfold fate, settle, outcome, run_task, writeCompressedFile, tinifyCompressBuffer.
  simpl. repeat (case_match; simpl; simplify_eq; try done).
Qed.

Lemma outcome_path t p : outcome env t = inr p -> p = t_out t.
Proof.
  unfold outcome, run_task. repeat case_match; simpl; intros; by simplify_eq.
Qed.

Lemma fate_resolved t : fate env t = Resolved <-> task_succeeds env t = true.
Proof.
  rewrite fate_outcome. unfold task_succeeds. by destruct (outcome env t).
Qed.

Lemma fate_rejected t e : fate env t = Rejected e <-> outcome env t = inl e.
Proof.
  rewrite fate_outcome. destruct (outcome env t); naive_solver.
Qed.

(** What a task holds at each stage comes from where the code says. *)
Lemma on_path_write t c :
  on_path env t (AwaitWrite c) ->
  exists buf, sharp env (t_src t) (t_enc t) = Fulfilled buf /\
              tinifyCompressBuffer env buf = inr c.
Proof.
  intros [n Hn].
  assert (forall s, pending s = true -> resume env t s = AwaitWrite c ->
            exists key url out, s = AwaitGet key url /\
              axios_get env key url = Fulfilled out /\
              non2xx (output_status out) = false /\ c = output_data out) as Hget.
  { intros s _ Hs. destruct s; simpl in Hs; repeat case_match; simplify_eq. eauto 10. }
  assert (forall s key url, resume env t s = AwaitGet key url ->
            exists buf res, s = AwaitPost key buf /\
              axios_post env key buf = Fulfilled res /\
              non2xx (shrink_status res) = false /\
              truthy (shrink_location res) = Some url) as Hpost.
  { intros s key url Hs. destruct s; simpl in Hs; repeat case_match; simplify_eq. eauto 10. }
  assert (forall s key buf, resume env t s = AwaitPost key buf ->
            s = AwaitSharp /\ sharp env (t_src t) (t_enc t) = Fulfilled buf /\
            truthy (API_KEY env) = Some key) as Hsharp.
  { intros s key buf Hs. destruct s; simpl in Hs; repeat case_match; simplify_eq. eauto. }
  destruct n as [|n]; [done|]. simpl in Hn. symmetry in Hn.
  apply Hget in Hn as (key & url & out & Hs & Hg & Hst & ->).
  2:{ destruct (pending (Nat.iter n (resume env t) AwaitSharp)) eqn:E; [done|].
      rewrite resume_final in Hn by done. by rewrite Hn in E. }
  destruct n as [|n]; [done|]. simpl in Hs.
  apply Hpost in Hs as (buf & res & Hs & Hp & Hst' & Hloc).
  destruct n as [|n]; [done|]. simpl in Hs.
  apply Hsharp in Hs as (_ & Hsh & Hkey).
  exists buf. split; [done|].
  unfold tinifyCompressBuffer. by rewrite Hkey, Hp, Hst', Hloc, Hg, Hst.
Qed.

End Tasks.

(** *** The runs of the machine *)

Section Runs.

Context `{PathLib}.
Variable env : Env.

Lemma elem_of_middle {A} (a b : list A) (x : A) : x ∈ a ++ x :: b.
Proof. apply elem_of_app. right. by left. Qed.

Lemma tasks_nonempty f ts : convertAndCompressOne env f = Some ts -> ts <> [].
Proof. unfold convertAndCompressOne. repeat case_match; intros; by simplify_eq. Qed.

Lemma map_fst_start (ts : list Task) :
  map fst (map (fun t => (t, AwaitSharp)) ts) = ts.
Proof. induction ts as [|t ts IH]; simpl; [done|]. by rewrite IH. Qed.

Lemma results_of_app a b : results_of (a ++ b) = results_of a ++ results_of b.
Proof. apply omap_app. Qed.

Lemma calls_app a b : calls (a ++ b) = calls a ++ calls b.
Proof. apply omap_app. Qed.

Lemma loop_inv todo : forall finished lines st,
  files env = finished ++ todo ->
  Forall2 (line_ok env) finished lines ->
  console st = header env ++ lines ->
  calls (history st) = finished ->
  Forall (task_ok env) (detached st) ->
  disk_ok env (disk st) ->
  Forall (event_ok env) (history st) ->
  Inv env (loop env todo (results_of lines) st).
Proof.
  induction todo as [|f rest IH]; intros finished lines st Hfiles Hlines Hcon Hcalls Hdet Hdisk Hhist.
  - simpl. exists finished, lines. repeat split; try done.
    + by rewrite app_nil_r in Hfiles.
    + simpl. by rewrite Hcon, <- app_assoc.
  - simpl. destruct (convertAndCompressOne env f) as [ts|] eqn:Hc.
    + exists finished, lines. split; [done|]. split; [|repeat split; try done].
      * unfold control_ok. simpl. repeat split; try done.
        -- by rewrite calls_app, Hcalls.
        -- by rewrite map_fst_start.
        -- apply Forall_fmap, Forall_forall. intros t _. simpl. split; [apply on_path_start|done].
        -- apply tasks_nonempty in Hc. destruct ts; [done|]. reflexivity.
      * simpl. apply Forall_app. split; [done|]. constructor; [|constructor].
        simpl. rewrite Hfiles. apply elem_of_middle.
    + replace (results_of lines ++ [{| srcPath := f; outputs := []; skipped := true |}])
        with (results_of (lines ++ [LSkip f])) by (by rewrite results_of_app).
      apply (IH (finished ++ [f])).
      * by rewrite <- app_assoc.
      * apply Forall2_app; [done|]. constructor; [|constructor]. unfold line_ok. by rewrite Hc.
      * simpl. by rewrite Hcon, <- app_assoc.
      * simpl. by rewrite calls_app, Hcalls.
      * done.
      * done.
      * simpl. apply Forall_app. split; [done|]. constructor; [|constructor].
        simpl. rewrite Hfiles. apply elem_of_middle.
Qed.


Lemma effect_ok t s d :
  genuine env t -> on_path env t s -> disk_ok env d -> disk_ok env (effect env t s d).
Proof.
  intros Hgen Hpath Hd. unfold effect, written.
  destruct s; try done. destruct (fs_writeFile env (t_out t) compressed); [|done].
  intros p b. rewrite lookup_insert. case_decide as Hp; [|apply Hd].
  intros [= <-]. right. destruct (on_path_write env t compressed Hpath) as (buf & Hs & Hc).
  by exists t, buf.
Qed.

Lemma filter_Forall {A} (P : A -> Prop) (f : A -> bool) (l : list A) :
  Forall P l -> Forall P (List.filter f l).
Proof.
  rewrite !Forall_forall. intros Hl x Hx. apply Hl.
  apply list_elem_of_In. apply list_elem_of_In in Hx. by apply filter_In in Hx as [? _].
Qed.

Lemma map_fst_insert (tasks : list (Task * Stage)) i t s s' :
  tasks !! i = Some (t, s) -> map fst (<[i := (t, s')]> tasks) = map fst tasks.
Proof.
  intros Hi. change (fst <$> <[i:=(t, s')]> tasks = fst <$> tasks).
  rewrite list_fmap_insert. apply list_insert_id. by rewrite list_lookup_fmap, Hi.
Qed.

Lemma resolved_succeeds (tasks : list (Task * Stage)) :
  Forall (fun ts => on_path env ts.1 ts.2) tasks ->
  forallb (fun ts => resolved ts.2) tasks = true ->
  forallb (task_succeeds env) (map fst tasks) = true.
Proof.
  induction 1 as [|[t s] l Hts Hl IH]; simpl; [done|].
  intros [Hr Hrest]%andb_true_iff. rewrite IH by done.
  destruct s; try done. simpl in Hts.
  apply on_path_final in Hts; [|done]. symmetry in Hts.
  apply fate_resolved in Hts. by rewrite Hts.
Qed.

Lemma not_rejected_match {X} (s : Stage) (a : Error -> X) (b : X) :
  (forall e, s <> Rejected e) ->
  match s with
  | Rejected e => a e
  | _ => b
  end = b.
Proof. intros Hs. destruct s; try done. by destruct (Hs e). Qed.

Lemma fire_inv p st st' : Inv env st -> fire env p st = Some st' -> Inv env st'.
Proof.
  intros (finished & lines & Hlines & Hctl & Hdet & Hdisk & Hhist) Hfire.
  destruct p as [i|i]; simpl in Hfire.
  - (* a task of the file [main] waits for *)
    unfold control_ok in Hctl.
    destruct (control st) as [f tasks rest results| |] eqn:Hc; try done.
    destruct (tasks !! i) as [[t s]|] eqn:Hi; [|done].
    destruct (pending s) eqn:Hpend; [|done].
    destruct Hctl as (Hfiles & Hcon & Hcalls & Hres & Hconv & Htasks & Hunres).
    assert (on_path env t s) as Hpath.
    { rewrite Forall_forall in Htasks. apply (Htasks (t, s)). by eapply list_elem_of_lookup_2. }
    assert (genuine env t) as Hgen.
    { exists f. split; [rewrite Hfiles; apply elem_of_middle|].
      unfold tasks_of. rewrite Hconv. simpl.
      apply (list_elem_of_fmap_2 fst _ (t, s)). by eapply list_elem_of_lookup_2. }
    pose proof (on_path_resume env t s Hpath) as Hpath'.
    assert (Forall (task_ok env) (<[i := (t, resume env t s)]> tasks)) as Hall.
    { apply Forall_insert; [|done].
      apply Forall_forall. intros [t' s'] Hin. split; simpl.
      - exists f. split; [rewrite Hfiles; apply elem_of_middle|].
        unfold tasks_of. rewrite Hconv. simpl. by apply (list_elem_of_fmap_2 fst _ (t', s')).
      - rewrite Forall_forall in Htasks. by apply (Htasks (t', s')). }
    assert (disk_ok env (effect env t s (disk st))) as Hdisk' by by apply effect_ok.
    assert (Forall (event_ok env) (history st ++ [Delivered t s (resume env t s)])) as Hhist'.
    { apply Forall_app. split; [done|]. by repeat constructor. }
    assert ((exists e, resume env t s = Rejected e) \/
            (forall e, resume env t s <> Rejected e)) as [[e He]|Hnr]
      by (destruct (resume env t s); eauto).
    + (* the task rejects: [catch] *)
      rewrite He in Hfire. injection Hfire as <-.
      subst results.
      replace (results_of lines) with (results_of (lines ++ [LError f e]))
        by (rewrite results_of_app; simpl; apply app_nil_r).
      apply (loop_inv rest (finished ++ [f])); simpl; try done.
      * by rewrite <- app_assoc.
      * apply Forall2_app; [done|]. constructor; [|constructor].
        unfold line_ok. rewrite Hconv. right. exists t, e. split.
        -- apply (list_elem_of_fmap_2 fst _ (t, s)). by eapply list_elem_of_lookup_2.
        -- split; [|done]. apply fate_rejected. symmetry. apply on_path_final.
           ++ by rewrite <- He.
           ++ done.
      * by rewrite Hcon, <- app_assoc.
      * by rewrite calls_app, Hcalls, app_nil_r.
      * apply Forall_app. split; [done|]. rewrite <- He. by apply filter_Forall.
    + rewrite not_rejected_match in Hfire by done.
      destruct (forallb (fun ts => resolved ts.2) (<[i := (t, resume env t s)]> tasks))
        eqn:Hall_res; injection Hfire as <-.
      * (* the last task resolves *)
        subst results.
        replace (results_of lines ++ _) with
          (results_of (lines ++ [LOk f (map (fun ts => t_out ts.1)
                                         (<[i := (t, resume env t s)]> tasks))]))
          by (by rewrite results_of_app).
        apply (loop_inv rest (finished ++ [f])); simpl; try done.
        -- by rewrite <- app_assoc.
        -- apply Forall2_app; [done|]. constructor; [|constructor].
           unfold line_ok. rewrite Hconv. left. split.
           ++ rewrite <- (map_fst_insert tasks i t s (resume env t s)) by done.
              apply resolved_succeeds; [|done].
              eapply Forall_impl; [exact Hall|]. by intros ? [_ ?].
           ++ rewrite <- (map_fst_insert tasks i t s (resume env t s)) by done.
              by rewrite map_map.
        -- by rewrite Hcon, <- app_assoc.
        -- by rewrite calls_app, Hcalls, app_nil_r.
      * (* [main] keeps waiting *)
        exists finished, lines. split; [done|]. split; [|done].
        unfold control_ok. simpl. repeat split; try done.
        -- by rewrite calls_app, Hcalls, app_nil_r.
        -- by rewrite (map_fst_insert tasks i t s).
        -- apply Forall_insert; [done|]. by split.
  - (* a task left behind *)
    destruct (detached st !! i) as [[t s]|] eqn:Hi; [|done].
    destruct (pending s) eqn:Hpend; [|done].
    injection Hfire as <-.
    assert (task_ok env (t, s)) as [Hgen Hpath].
    { rewrite Forall_forall in Hdet. apply Hdet. by eapply list_elem_of_lookup_2. }
    exists finished, lines. split; [done|]. simpl in *. repeat split.
    + unfold control_ok in *. simpl.
      destruct (control st); try done.
      * destruct Hctl as (? & ? & ? & ? & ? & ? & ?). repeat split; try done.
        by rewrite calls_app, app_nil_r.
      * destruct Hctl as (? & ? & ?). repeat split; try done.
        by rewrite calls_app, app_nil_r.
    + apply Forall_insert; [done|]. split; [done|]. by apply on_path_resume.
    + by apply effect_ok.
    + apply Forall_app. split; [done|]. by repeat constructor.
Qed.


Lemma run_inv sched : forall st st', Inv env st -> run env sched st = Some st' -> Inv env st'.
Proof.
  induction sched as [|p sched IH]; simpl; intros st st' Hinv Hrun.
  - by injection Hrun as <-.
  - destruct (fire env p st) as [st1|] eqn:Hf; [|done].
    eapply IH; [|done]. by eapply fire_inv.
Qed.

Lemma files_nonempty_length : files env <> [] -> (length (files env) =? 0)%nat = false.
Proof. destruct (files env); [done|]. by intros _. Qed.

Lemma main_inv : setup_ok env -> files env <> [] -> Inv env (main env).
Proof.
  intros [[u Hdirs] [nested Hglob]] Hne. unfold main.
  rewrite Hdirs, Hglob, files_nonempty_length by done.
  apply (loop_inv (files env) [] []); simpl; try done.
  intros p b Hp. by left.
Qed.

Lemma reachable_inv st : setup_ok env -> files env <> [] -> reachable env st -> Inv env st.
Proof. intros Hok Hne [sched Hrun]. eapply run_inv; [|done]. by apply main_inv. Qed.

(** *** Runs end *)

Lemma tasks_weight_app a b : tasks_weight (a ++ b) = tasks_weight a + tasks_weight b.
Proof. apply sum_list_with_app. Qed.

Lemma tasks_weight_insert (tasks : list (Task * Stage)) i t s s' :
  tasks !! i = Some (t, s) ->
  tasks_weight (<[i := (t, s')]> tasks) + stage_weight s = tasks_weight tasks + stage_weight s'.
Proof.
  revert i. induction tasks as [|x l IH]; intros [|i] Hi; simpl in *; try done.
  - injection Hi as ->. unfold tasks_weight. simpl. lia.
  - specialize (IH i Hi). unfold tasks_weight in *. simpl. lia.
Qed.

Lemma tasks_weight_filter (tasks : list (Task * Stage)) :
  tasks_weight (List.filter (fun ts => pending ts.2) tasks) = tasks_weight tasks.
Proof.
  induction tasks as [|[t s] l IH]; [done|]. simpl.
  destruct (pending s) eqn:E; unfold tasks_weight in *; simpl; rewrite IH; [done|].
  apply weight_final in E. lia.
Qed.

Lemma tasks_weight_start (ts : list Task) :
  tasks_weight (map (fun t => (t, AwaitSharp)) ts) = 4 * length ts.
Proof. induction ts as [|t ts IH]; [done|]. unfold tasks_weight in *. simpl. lia. Qed.

Lemma todo_weight_cons f rest :
  todo_weight env (f :: rest) = 4 * length (tasks_of env f) + todo_weight env rest.
Proof. reflexivity. Qed.

Lemma potential_loop todo : forall results st,
  potential env (loop env todo results st) = tasks_weight (detached st) + todo_weight env todo.
Proof.
  induction todo as [|f rest IH]; intros results st.
  - unfold potential, todo_weight. simpl. lia.
  - rewrite todo_weight_cons. unfold tasks_of. cbn [loop].
    destruct (convertAndCompressOne env f) as [ts|] eqn:Hc.
    + unfold potential. cbn [control detached goto record default].
      rewrite tasks_weight_start. unfold id. lia.
    + rewrite IH. cbn [detached say record default length]. unfold id. simpl. lia.
Qed.

(** Every delivery uses up some of the potential. *)
Lemma fire_potential p st st' :
  fire env p st = Some st' -> potential env st' < potential env st.
Proof.
  intros Hfire. destruct p as [i|i]; simpl in Hfire.
  - destruct (control st) as [f tasks rest results| |] eqn:Hc; try done.
    destruct (tasks !! i) as [[t s]|] eqn:Hi; [|done].
    destruct (pending s) eqn:Hpend; [|done].
    pose proof (resume_weight env t s Hpend) as Hw.
    pose proof (tasks_weight_insert tasks i t s (resume env t s) Hi) as Hins.
    unfold potential at 2. rewrite Hc.
    assert ((exists e, resume env t s = Rejected e) \/
            (forall e, resume env t s <> Rejected e)) as [[e He]|Hnr]
      by (destruct (resume env t s); eauto).
    + rewrite He in Hfire. injection Hfire as <-.
      rewrite potential_loop. simpl. rewrite tasks_weight_app, tasks_weight_filter.
      rewrite He in Hins, Hw. lia.
    + rewrite not_rejected_match in Hfire by done.
      destruct (forallb (fun ts => resolved ts.2) (<[i := (t, resume env t s)]> tasks));
        injection Hfire as <-.
      * rewrite potential_loop. simpl. lia.
      * unfold potential. simpl. lia.
  - destruct (detached st !! i) as [[t s]|] eqn:Hi; [|done].
    destruct (pending s) eqn:Hpend; [|done].
    injection Hfire as <-.
    pose proof (resume_weight env t s Hpend) as Hw.
    pose proof (tasks_weight_insert (detached st) i t s (resume env t s) Hi) as Hins.
    unfold potential. simpl. destruct (control st); lia.
Qed.

Lemma run_bounded sched : forall st st',
  run env sched st = Some st' -> length sched + potential env st' <= potential env st.
Proof.
  induction sched as [|p sched IH]; simpl; intros st st' Hrun.
  - injection Hrun as <-. lia.
  - destruct (fire env p st) as [st1|] eqn:Hf; [|done].
    apply fire_potential in Hf. apply IH in Hrun. lia.
Qed.

Lemma forallb_false_lookup {A} (f : A -> bool) (l : list A) :
  forallb f l = false -> exists i x, l !! i = Some x /\ f x = false.
Proof.
  induction l as [|a l IH]; simpl; [done|].
  destruct (f a) eqn:E; simpl.
  - intros (i & x & Hi & Hx)%IH. by exists (S i), x.
  - intros _. by exists 0, a.
Qed.

(** A run that is not over has a completion to deliver. *)
Lemma progress st : Inv env st -> exit_code st = None -> exists p st', fire env p st = Some st'.
Proof.
  intros (finished & lines & _ & Hctl & _) Hexit.
  unfold exit_code in Hexit. unfold control_ok in Hctl.
  destruct (control st) as [f tasks rest results| |] eqn:Hc; try done.
  - destruct Hctl as (_ & _ & _ & _ & _ & Htasks & Hunres).
    apply forallb_false_lookup in Hunres as (i & [t s] & Hi & Hs).
    assert (pending s = true) as Hpend.
    { rewrite Forall_forall in Htasks.
      destruct (Htasks (t, s)) as [_ Hnr]; [by eapply list_elem_of_lookup_2|].
      simpl in *. destruct s; try done. by destruct (Hnr e). }
    exists (Current i). simpl. rewrite Hc, Hi, Hpend.
    destruct (resume env t s); try destruct (forallb _ _); eauto.
  - destruct (quiescent st) eqn:Hq; [done|].
    apply forallb_false_lookup in Hq as (i & [t s] & Hi & Hs).
    exists (Detached i). simpl. rewrite Hi.
    simpl in Hs. apply negb_false_iff in Hs. rewrite Hs. eauto.
Qed.

Lemma run_app a : forall b st st',
  run env a st = Some st' -> run env (a ++ b) st = run env b st'.
Proof.
  induction a as [|p a IH]; simpl; intros b st st' Hrun.
  - by injection Hrun as <-.
  - destruct (fire env p st); [|done]. by apply IH.
Qed.

(** Every run can be carried on until the process exits. *)
Lemma run_to_exit st : Inv env st -> exists sched st', run env sched st = Some st' /\ exited st'.
Proof.
  remember (potential env st) as n eqn:Hn. revert st Hn.
  induction n as [n IH] using lt_wf_ind. intros st -> Hinv.
  destruct (exit_code st) as [c|] eqn:Hexit.
  - exists [], st. split; [done|]. unfold exited. by rewrite Hexit.
  - destruct (progress st Hinv Hexit) as (p & st1 & Hfire).
    destruct (IH (potential env st1) (fire_potential _ _ _ Hfire) st1 eq_refl
                (fire_inv _ _ _ Hinv Hfire)) as (sched & st' & Hrun & Hex).
    exists (p :: sched), st'. simpl. by rewrite Hfire.
Qed.

(** *** What the console shows when the process exits *)

Lemma line_ok_verdict f l : line_ok env f l -> line_verdict l = Some (f, verdict env f).
Proof.
  unfold line_ok, verdict. destruct (convertAndCompressOne env f) as [ts|].
  - intros [[Hall ->]|(t & e & Hin & Hout & ->)]; simpl.
    + by rewrite Hall.
    + destruct (forallb (task_succeeds env) ts) eqn:E; [|done].
      rewrite forallb_forall in E. specialize (E t).
      rewrite <- list_elem_of_In in E. specialize (E Hin).
      unfold task_succeeds in E. by rewrite Hout in E.
  - by intros ->.
Qed.

Lemma reports_app a b : reports (a ++ b) = reports a ++ reports b.
Proof. apply omap_app. Qed.

Lemma tallies_app a b : tallies (a ++ b) = tallies a ++ tallies b.
Proof. apply omap_app. Qed.

Lemma reports_lines fs lines :
  Forall2 (line_ok env) fs lines -> reports lines = map (fun f => (f, verdict env f)) fs.
Proof.
  induction 1 as [|f l fs lines Hl _ IH]; [done|].
  simpl. unfold reports in *. simpl. by rewrite (line_ok_verdict f l Hl), IH.
Qed.

Lemma tallies_lines fs lines : Forall2 (line_ok env) fs lines -> tallies lines = [].
Proof.
  induction 1 as [|f l fs lines Hl _ IH]; [done|].
  change (l :: lines) with ([l] ++ lines). rewrite tallies_app, IH.
  apply line_ok_verdict in Hl. by destruct l.
Qed.

Lemma okCount_app a b : okCount (a ++ b) = okCount a + okCount b.
Proof. unfold okCount. by rewrite List.filter_app, length_app. Qed.

Lemma count_verdict_cons v f fs :
  count_verdict env v (f :: fs) =
  (if bool_decide (verdict env f = v) then 1 else 0) + count_verdict env v fs.
Proof. unfold count_verdict. simpl. by destruct (bool_decide (verdict env f = v)). Qed.

Lemma okCount_line f l :
  line_ok env f l ->
  okCount (results_of [l]) = if bool_decide (verdict env f = Succeeded) then 1 else 0.
Proof.
  intros Hl. pose proof (line_ok_verdict f l Hl) as Hv.
  unfold line_ok in Hl. destruct (convertAndCompressOne env f) as [ts|] eqn:Hc.
  - destruct Hl as [[Hall ->]|(t & e & Hin & Hout & ->)]; injection Hv as <-; [|done].
    apply tasks_nonempty in Hc. by destruct ts.
  - subst l. by injection Hv as <-.
Qed.

Lemma okCount_lines fs lines :
  Forall2 (line_ok env) fs lines -> okCount (results_of lines) = count_verdict env Succeeded fs.
Proof.
  induction 1 as [|f l fs lines Hl _ IH]; [done|].
  change (l :: lines) with ([l] ++ lines).
  by rewrite results_of_app, okCount_app, IH, count_verdict_cons, (okCount_line f l).
Qed.

(** The state of a run that is over, when the set-up went through and
    there was something to do. *)
Lemma exit_state st :
  Inv env st -> exited st ->
  exit_code st = Some 0%Z /\
  control st = Returned /\
  calls (history st) = files env /\
  exists lines,
    Forall2 (line_ok env) (files env) lines /\
    console st = header env ++ lines ++
                 [LDone (count_verdict env Succeeded (files env)) (length (files env))].
Proof.
  intros (finished & lines & Hlines & Hctl & _) [c Hc].
  unfold exit_code in Hc. unfold control_ok in Hctl.
  destruct (control st) eqn:Hctrl; try done.
  destruct Hctl as (<- & Hcon & Hcalls).
  split; [|split; [done|split; [done|]]].
  - unfold exit_code. rewrite Hctrl. by destruct (quiescent st).
  - exists lines. split; [done|]. by rewrite Hcon, (okCount_lines _ _ Hlines).
Qed.

End Runs.

(** *** The enumeration, runs with nothing to deliver, the disk *)

Section Batch.

Context `{PathLib}.
Variable env : Env.

(** *** The enumeration *)

Lemma spread_set_spec xs : forall seen,
  NoDup seen ->
  NoDup (spread_set seen xs) /\
  forall x, x ∈ spread_set seen xs <-> x ∈ seen \/ x ∈ xs.
Proof.
  induction xs as [|y xs IH]; intros seen Hnd; simpl.
  - split; [by rewrite reverse_Permutation|].
    intros x. rewrite elem_of_reverse, elem_of_nil. tauto.
  - destruct (decide (y ∈ seen)) as [Hy|Hy].
    + destruct (IH seen Hnd) as [Hnd' Hin]. split; [done|].
      intros x. rewrite Hin, elem_of_cons. split; [tauto|]. intros [?|[->|?]]; tauto.
    + destruct (IH (y :: seen)) as [Hnd' Hin]; [by apply NoDup_cons|].
      split; [done|]. intros x. rewrite Hin, !elem_of_cons. tauto.
Qed.

Lemma files_NoDup : NoDup (files env).
Proof.
  unfold files. destruct (filesNested env); [|apply NoDup_nil_2].
  apply spread_set_spec, NoDup_nil_2.
Qed.

Lemma files_elem nested f :
  filesNested env = Fulfilled nested -> f ∈ files env <-> f ∈ concat nested.
Proof.
  intros Hn. unfold files. rewrite Hn.
  destruct (spread_set_spec (concat nested) [] (NoDup_nil_2)) as [_ Hin].
  rewrite Hin, elem_of_nil. tauto.
Qed.

(** *** Runs with nothing to deliver *)

Lemma setup_cases : setup_ok env \/ setup_failed env.
Proof.
  unfold setup_ok, setup_failed.
  destruct (ensureDirs env) eqn:Hd, (filesNested env) eqn:Hg; eauto 10.
Qed.

Lemma setup_exclusive : setup_ok env -> setup_failed env -> False.
Proof.
  intros [[u Hd] [n Hg]] [[r Hr]|[r Hr]]; congruence.
Qed.

Lemma main_setup_failed :
  setup_failed env ->
  exists e, main env = goto (Threw e) (say (LFatal e) (boot env)).
Proof.
  unfold main. intros [[r Hr]|[r Hr]].
  - rewrite Hr. eauto.
  - rewrite Hr. destruct (ensureDirs env); eauto.
Qed.

Lemma main_empty :
  setup_ok env -> files env = [] -> main env = goto Returned (say LNoTargets (boot env)).
Proof.
  intros [[u Hd] [n Hg]] He. unfold main. by rewrite Hd, Hg, He.
Qed.

Lemma fire_idle p st :
  detached st = [] -> (forall f ts rest rs, control st <> Awaiting f ts rest rs) ->
  fire env p st = None.
Proof.
  intros Hd Hc. destruct p as [i|i]; simpl.
  - destruct (control st) eqn:E; try done. by destruct (Hc f tasks rest results).
  - by rewrite Hd.
Qed.

Lemma run_idle sched st st' :
  detached st = [] -> (forall f ts rest rs, control st <> Awaiting f ts rest rs) ->
  run env sched st = Some st' -> st' = st.
Proof.
  intros Hd Hc. destruct sched as [|p sched]; simpl.
  - by intros [= <-].
  - by rewrite fire_idle.
Qed.

Lemma reachable_idle st :
  setup_failed env \/ (setup_ok env /\ files env = []) -> reachable env st -> st = main env.
Proof.
  intros Hcase [sched Hrun]. eapply run_idle; [| |exact Hrun].
  - destruct Hcase as [(e & ->)%main_setup_failed|[Hok He]]; [done|].
    by rewrite main_empty.
  - destruct Hcase as [(e & ->)%main_setup_failed|[Hok He]]; [done|].
    by rewrite main_empty.
Qed.

(** *** The disk holds what the writes put there *)

Lemma writes_app a b : writes (a ++ b) = writes a ++ writes b.
Proof. apply omap_app. Qed.

Lemma loop_disk todo : forall results st,
  disk (loop env todo results st) = disk st /\
  writes (history (loop env todo results st)) = writes (history st).
Proof.
  induction todo as [|f rest IH]; intros results st; simpl; [done|].
  destruct (convertAndCompressOne env f).
  - simpl. by rewrite writes_app, app_nil_r.
  - destruct (IH (results ++ [{| srcPath := f; outputs := []; skipped := true |}])
                (say (LSkip f) (record (Called f) st))) as [-> ->].
    simpl. by rewrite writes_app, app_nil_r.
Qed.

Lemma writes_delivered t s :
  writes [Delivered t s (resume env t s)] =
  match written env t s with Some c => [(t, c)] | None => [] end.
Proof.
  destruct s; try done. unfold writes. simpl.
  by destruct (fs_writeFile env (t_out t) compressed).
Qed.

Lemma replay_effect d ws t s :
  replay d (ws ++ match written env t s with Some c => [(t, c)] | None => [] end)
  = effect env t s (replay d ws).
Proof.
  unfold replay, effect. rewrite foldl_app. by destruct (written env t s).
Qed.

Lemma fire_disk p st st' :
  fire env p st = Some st' ->
  disk st = replay (disk0 env) (writes (history st)) ->
  disk st' = replay (disk0 env) (writes (history st')).
Proof.
  intros Hfire Hd.
  assert (forall t s, effect env t s (disk st)
                      = replay (disk0 env)
                          (writes (history st ++ [Delivered t s (resume env t s)])))
    as Hdel.
  { intros t s. by rewrite writes_app, writes_delivered, replay_effect, Hd. }
  destruct p as [i|i]; simpl in Hfire.
  - destruct (control st) as [f tasks rest results| |] eqn:Hc; try done.
    destruct (tasks !! i) as [[t s]|] eqn:Hi; [|done].
    destruct (pending s) eqn:Hpend; [|done].
    assert ((exists e, resume env t s = Rejected e) \/
            (forall e, resume env t s <> Rejected e)) as [[e He]|Hnr]
      by (destruct (resume env t s); eauto).
    + rewrite He in Hfire. injection Hfire as <-.
      match goal with |- disk (loop _ ?a ?b ?c) = _ =>
        destruct (loop_disk a b c) as [-> ->] end.
      apply Hdel.
    + rewrite not_rejected_match in Hfire by done.
      destruct (forallb (fun ts => resolved ts.2) (<[i := (t, resume env t s)]> tasks));
        injection Hfire as <-; [|apply Hdel].
      match goal with |- disk (loop _ ?a ?b ?c) = _ =>
        destruct (loop_disk a b c) as [-> ->] end.
      apply Hdel.
  - destruct (detached st !! i) as [[t s]|] eqn:Hi; [|done].
    destruct (pending s) eqn:Hpend; [|done].
    injection Hfire as <-. apply Hdel.
Qed.

End Batch.

(** *** The states of the runs *)

Section States.

Context `{PathLib}.
Variable env : Env.

Lemma main_disk :
  disk (main env) = disk0 env /\ writes (history (main env)) = [].
Proof.
  unfold main. repeat case_match; simpl; try done.
  match goal with |- disk (loop ?e ?a ?b ?c) = _ /\ _ =>
    destruct (loop_disk e a b c) as [-> ->] end. done.
Qed.

Lemma run_disk sched : forall st st',
  disk st = replay (disk0 env) (writes (history st)) ->
  run env sched st = Some st' ->
  disk st' = replay (disk0 env) (writes (history st')).
Proof.
  induction sched as [|p sched IH]; simpl; intros st st' Hd Hrun.
  - by injection Hrun as <-.
  - destruct (fire env p st) as [st1|] eqn:Hf; [|done].
    eapply IH; [|done]. by eapply fire_disk.
Qed.

Lemma reachable_disk st :
  reachable env st -> disk st = replay (disk0 env) (writes (history st)).
Proof.
  intros [sched Hrun]. eapply run_disk; [|done].
  by destruct main_disk as [-> ->].
Qed.

(** Every state of every run, whatever the set-up and the batch. *)
Lemma reachable_cases st :
  reachable env st ->
  (setup_failed env /\ st = main env) \/
  (setup_ok env /\ files env = [] /\ st = main env) \/
  (setup_ok env /\ files env <> [] /\ Inv env st).
Proof.
  intros Hr. destruct setup_cases with (env := env) as [Hok|Hbad].
  - destruct (decide (files env = [])) as [He|Hne].
    + right. left. split; [done|]. split; [done|]. apply reachable_idle; auto.
    + right. right. split; [done|]. split; [done|]. by apply reachable_inv.
  - left. split; [done|]. apply reachable_idle; auto.
Qed.

Lemma delivered_ok st t s s' :
  reachable env st -> Delivered t s s' ∈ history st ->
  genuine env t /\ on_path env t s /\ pending s = true /\ s' = resume env t s.
Proof.
  intros Hr Hin. destruct (reachable_cases st Hr) as [[Hbad ->]|[(Hok & He & ->)|(Hok & Hne & Hinv)]].
  - destruct (main_setup_failed env Hbad) as [e Hm]. rewrite Hm in Hin.
    simpl in Hin. by apply elem_of_nil in Hin.
  - rewrite main_empty in Hin by done. simpl in Hin. by apply elem_of_nil in Hin.
  - destruct Hinv as (? & ? & _ & _ & _ & _ & Hhist).
    rewrite Forall_forall in Hhist. apply (Hhist _ Hin).
Qed.

Lemma elem_of_writes h t c :
  (t, c) ∈ writes h <-> Delivered t (AwaitWrite c) Resolved ∈ h.
Proof.
  unfold writes. rewrite list_elem_of_omap. split.
  - intros (e & He & Hm). destruct e as [|t' s s']; [done|].
    destruct s; try done. destruct s'; try done. by injection Hm as -> ->.
  - intros Hin. by exists (Delivered t (AwaitWrite c) Resolved).
Qed.


(** *** How runs end *)

Lemma can_exit st :
  setup_ok env -> reachable env st ->
  exists sched st', run env sched st = Some st' /\ exit_code st' = Some 0%Z.
Proof.
  intros Hok Hr. destruct (reachable_cases st Hr)
    as [[Hbad ->]|[(_ & He & ->)|(_ & Hne & Hinv)]].
  - destruct (setup_exclusive env Hok Hbad).
  - exists [], (main env). split; [done|]. by rewrite main_empty.
  - destruct (run_to_exit env st Hinv) as (sched & st' & Hrun & Hex).
    exists sched, st'. split; [done|].
    by destruct (exit_state env st' (run_inv env sched st st' Hinv Hrun) Hex) as [? _].
Qed.

Lemma at_exit st :
  setup_ok env -> reachable env st -> exited st ->
  exit_code st = Some 0%Z /\
  calls (history st) = files env /\
  reports (console st) = map (fun f => (f, verdict env f)) (files env).
Proof.
  intros Hok Hr Hex. destruct (reachable_cases st Hr)
    as [[Hbad ->]|[(_ & He & ->)|(_ & Hne & Hinv)]].
  - destruct (setup_exclusive env Hok Hbad).
  - rewrite main_empty by done. by rewrite He.
  - destruct (exit_state env st Hinv Hex) as (Hcode & _ & Hcalls & lines & Hlines & Hcon).
    split; [done|]. split; [done|].
    rewrite Hcon. unfold header. rewrite !reports_app.
    rewrite (reports_lines env _ _ Hlines). simpl. by rewrite app_nil_r.
Qed.

Lemma status_line st f :
  setup_ok env -> reachable env st -> exited st -> f ∈ files env ->
  exists l, l ∈ console st /\ line_ok env f l.
Proof.
  intros Hok Hr Hex Hf.
  assert (files env <> []) as Hne
    by (intros He; rewrite He in Hf; by apply elem_of_nil in Hf).
  destruct (exit_state env st (reachable_inv env st Hok Hne Hr) Hex)
    as (_ & _ & _ & lines & Hlines & Hcon).
  apply list_elem_of_lookup in Hf as [i Hi].
  destruct (Forall2_lookup_l _ _ _ _ _ Hlines Hi) as (l & Hl & Hline).
  exists l. split; [|done].
  rewrite Hcon. apply elem_of_app. right. apply elem_of_app. left.
  by eapply list_elem_of_lookup_2.
Qed.

(** *** What reaches the disk *)

Lemma writes_are_compressed st t c :
  reachable env st -> (t, c) ∈ writes (history st) ->
  genuine env t /\
  exists buf, sharp env (t_src t) (t_enc t) = Fulfilled buf /\
              tinifyCompressBuffer env buf = inr c.
Proof.
  intros Hr Hin. apply elem_of_writes in Hin.
  destruct (delivered_ok st _ _ _ Hr Hin) as (Hgen & Hpath & _ & _).
  split; [done|]. by apply on_path_write.
Qed.

(** *** Counting verdicts *)

Lemma count_all_succeeded fs :
  (forall f, f ∈ fs -> verdict env f = Succeeded) ->
  count_verdict env Succeeded fs = length fs /\
  count_verdict env Failed fs = 0 /\
  count_verdict env Skipped fs = 0.
Proof.
  induction fs as [|f fs IH]; intros Hl; [done|].
  rewrite !count_verdict_cons. rewrite (Hl f) by left.
  destruct IH as (-> & -> & ->); [intros; apply Hl; by right|].
  repeat case_bool_decide; simplify_eq. simpl. repeat split; lia.
Qed.

Lemma count_one_failed fs f0 :
  NoDup fs -> f0 ∈ fs -> verdict env f0 = Failed ->
  (forall f, f ∈ fs -> f <> f0 -> verdict env f = Succeeded) ->
  count_verdict env Succeeded fs + 1 = length fs /\
  count_verdict env Failed fs = 1 /\
  count_verdict env Skipped fs = 0.
Proof.
  induction fs as [|f fs IH]; intros Hnd Hin Hf0 Hothers.
  - by apply elem_of_nil in Hin.
  - apply NoDup_cons in Hnd as [Hnotin Hnd].
    rewrite !count_verdict_cons.
    destruct (decide (f = f0)) as [->|Hne].
    + rewrite Hf0.
      destruct (count_all_succeeded fs) as (-> & -> & ->).
      { intros f Hf. apply Hothers; [by right|]. by intros ->. }
      repeat case_bool_decide; simplify_eq. simpl. repeat split; lia.
    + rewrite (Hothers f) by (done || by left).
      apply elem_of_cons in Hin as [->|Hin]; [done|].
      destruct IH as (Hs & -> & ->); try done.
      { intros; apply Hothers; [by right|done]. }
      repeat case_bool_decide; simplify_eq. simpl. repeat split; lia.
Qed.

(** *** Without a credential *)

Lemma outcome_no_key t :
  truthy (API_KEY env) = None ->
  (exists r, sharp env (t_src t) (t_enc t) = RejectedBy r /\
             outcome env t = inl (Raised Sharp r)) \/
  (exists buf, sharp env (t_src t) (t_enc t) = Fulfilled buf /\
               outcome env t = inl NoApiKey).
Proof.
  intros Hkey. unfold outcome, run_task, writeCompressedFile, tinifyCompressBuffer.
  rewrite Hkey. destruct (sharp env (t_src t) (t_enc t)); eauto.
Qed.

Lemma qualifies_tasks f :
  qualifies env f -> exists ts, convertAndCompressOne env f = Some ts /\ ts <> [].
Proof.
  unfold qualifies, planned. destruct (convertAndCompressOne env f) as [ts|] eqn:Hc; [|done].
  intros _. exists ts. split; [done|]. by eapply tasks_nonempty.
Qed.

(** *** Output paths *)

Lemma task_of_file f t :
  t ∈ tasks_of env f ->
  t_src t = f /\
  t_out t = withExt (AFTER_DIR env) (baseNameNoExt f) (t_ext t) /\
  (t_ext t = ".jpg" \/ t_ext t = ".webp").
Proof.
  unfold tasks_of, convertAndCompressOne.
  destruct (isPng _); [|destruct (isJpeg _)]; simpl.
  - intros [->|[->|[]%elem_of_nil]%elem_of_cons]%elem_of_cons; simpl; auto.
  - intros [->|[]%elem_of_nil]%elem_of_cons; simpl; auto.
  - by intros []%elem_of_nil.
Qed.

Lemma shared_base_shared_path f1 f2 t1 t2 :
  t1 ∈ tasks_of env f1 -> t2 ∈ tasks_of env f2 ->
  baseNameNoExt f1 = baseNameNoExt f2 -> t_ext t1 = t_ext t2 ->
  t_out t1 = t_out t2.
Proof.
  intros (_ & -> & _)%task_of_file (_ & -> & _)%task_of_file -> ->. done.
Qed.

End States.

(** *** The order of the deliveries *)

Section Turns.

Context `{PathLib}.
Variable env : Env.

Lemma in_turn_app a : forall called b,
  in_turn env called (a ++ b) <-> in_turn env called a /\ in_turn env (called ++ calls a) b.
Proof.
  induction a as [|e a IH]; intros called b; simpl.
  - rewrite app_nil_r. tauto.
  - destruct e as [f|t s s'].
    + rewrite IH. change (calls (Called f :: a)) with (f :: calls a).
      by rewrite <- app_assoc.
    + rewrite IH. change (calls (Delivered t s s' :: a)) with (calls a). tauto.
Qed.

Lemma loop_history todo : forall results st,
  exists k, history (loop env todo results st) = history st ++ map Called k /\
            detached (loop env todo results st) = detached st.
Proof.
  induction todo as [|f rest IH]; intros results st; simpl.
  - exists []. by rewrite app_nil_r.
  - destruct (convertAndCompressOne env f).
    + exists [f]. done.
    + destruct (IH (results ++ [{| srcPath := f; outputs := []; skipped := true |}])
                  (say (LSkip f) (record (Called f) st))) as (k & -> & ->).
      exists (f :: k). simpl. by rewrite <- app_assoc.
Qed.

Lemma in_turn_calls k : forall called, in_turn env called (map Called k).
Proof. induction k as [|f k IH]; intros called; simpl; [done|apply IH]. Qed.

Lemma loop_in_turn todo results st :
  in_turn env [] (history st) -> left_behind env st ->
  in_turn env [] (history (loop env todo results st)) /\ left_behind env (loop env todo results st).
Proof.
  intros Hturn Hleft. unfold left_behind.
  destruct (loop_history todo results st) as (k & -> & ->). split.
  - apply in_turn_app. split; [done|]. apply in_turn_calls.
  - eapply Forall_impl; [exact Hleft|]. intros [t s] [Hin Hv]. split; [|done].
    rewrite calls_app. apply elem_of_app. by left.
Qed.

Lemma fire_in_turn p st st' :
  Inv env st -> in_turn env [] (history st) -> left_behind env st ->
  fire env p st = Some st' ->
  in_turn env [] (history st') /\ left_behind env st'.
Proof.
  intros (finished & lines & Hlines & Hctl & _) Hturn Hleft Hfire.
  destruct p as [i|i]; simpl in Hfire.
  - unfold control_ok in Hctl.
    destruct (control st) as [f tasks rest results| |] eqn:Hc; try done.
    destruct (tasks !! i) as [[t s]|] eqn:Hi; [|done].
    destruct (pending s) eqn:Hpend; [|done].
    destruct Hctl as (Hfiles & Hcon & Hcalls & Hres & Hconv & Htasks & Hunres).
    assert (forall t' s', (t', s') ∈ tasks -> t_src t' = f) as Hsrc.
    { intros t' s' Hin.
      destruct (task_of_file env f t') as [? _]; [|done].
      unfold tasks_of. rewrite Hconv. by apply (list_elem_of_fmap_2 fst _ (t', s')). }
    assert (in_turn env [] (history st ++ [Delivered t s (resume env t s)])) as Hturn'.
    { apply in_turn_app. split; [done|]. simpl. split; [|done]. left.
      rewrite Hcalls, last_snoc. f_equal. symmetry. eapply Hsrc.
      by eapply list_elem_of_lookup_2. }
    assert (Forall (fun ts => t_src ts.1 ∈ calls (history st ++ [Delivered t s (resume env t s)])
                              /\ verdict env (t_src ts.1) = Failed) (detached st)) as Hleft'.
    { eapply Forall_impl; [exact Hleft|]. intros [t' s'] [Hin Hv]. split; [|done].
      rewrite calls_app. apply elem_of_app. by left. }
    assert ((exists e, resume env t s = Rejected e) \/
            (forall e, resume env t s <> Rejected e)) as [[e He]|Hnr]
      by (destruct (resume env t s); eauto).
    + rewrite He in Hfire. injection Hfire as <-.
      apply loop_in_turn; simpl; [exact Hturn'|].
      unfold left_behind. simpl. apply Forall_app. split; [exact Hleft'|].
      apply filter_Forall. apply Forall_forall. intros [t' s'] Hin. simpl.
      assert (t_src t' = f) as ->.
      { apply list_elem_of_lookup in Hin as [j Hj].
        destruct (decide (i = j)) as [<-|Hne].
        - rewrite list_lookup_insert_eq in Hj by (by eapply lookup_lt_Some).
          injection Hj as <- <-. eapply Hsrc. by eapply list_elem_of_lookup_2.
        - rewrite list_lookup_insert_ne in Hj by done.
          eapply Hsrc. by eapply list_elem_of_lookup_2. }
      split.
      * rewrite calls_app, Hcalls. apply elem_of_app. left. apply elem_of_app. right. by left.
      * assert (line_ok env f (LError f e)) as Hl.
        { unfold line_ok. rewrite Hconv. right. exists t, e. split.
          - apply (list_elem_of_fmap_2 fst _ (t, s)). by eapply list_elem_of_lookup_2.
          - split; [|done]. apply fate_rejected. symmetry. apply on_path_final.
            + rewrite <- He. apply on_path_resume.
              rewrite Forall_forall in Htasks. apply (Htasks (t, s)).
              by eapply list_elem_of_lookup_2.
            + done. }
        apply line_ok_verdict in Hl. by injection Hl.
    + rewrite not_rejected_match in Hfire by done.
      destruct (forallb (fun ts => resolved ts.2) (<[i := (t, resume env t s)]> tasks));
        injection Hfire as <-.
      * by apply loop_in_turn.
      * done.
  - destruct (detached st !! i) as [[t s]|] eqn:Hi; [|done].
    destruct (pending s) eqn:Hpend; [|done].
    injection Hfire as <-. simpl.
    assert (t_src t ∈ calls (history st) /\ verdict env (t_src t) = Failed) as [Hin Hv].
    { unfold left_behind in Hleft. rewrite Forall_forall in Hleft.
      apply (Hleft (t, s)). by eapply list_elem_of_lookup_2. }
    split.
    + apply in_turn_app. split; [done|]. simpl. split; [|done]. by right.
    + unfold left_behind. simpl. apply Forall_insert.
      * eapply Forall_impl; [exact Hleft|]. intros [t' s'] [Hin' Hv']. split; [|done].
        rewrite calls_app. apply elem_of_app. by left.
      * simpl. split; [|done]. rewrite calls_app. apply elem_of_app. by left.
Qed.

Lemma run_in_turn sched : forall st st',
  Inv env st -> in_turn env [] (history st) -> left_behind env st ->
  run env sched st = Some st' ->
  in_turn env [] (history st') /\ left_behind env st'.
Proof.
  induction sched as [|p sched IH]; simpl; intros st st' Hinv Hturn Hleft Hrun.
  - by injection Hrun as <-.
  - destruct (fire env p st) as [st1|] eqn:Hf; [|done].
    destruct (fire_in_turn p st st1 Hinv Hturn Hleft Hf) as [Hturn1 Hleft1].
    eapply IH; [|exact Hturn1|exact Hleft1|exact Hrun]. by eapply fire_inv.
Qed.

(** In every state of every run, each I/O completion was delivered to a task
    of the file [convertAndCompressOne] was last called on, or to a task of
    an earlier file that failed. *)
Lemma deliveries_in_turn st : reachable env st -> in_turn env [] (history st).
Proof.
  intros Hr. destruct (reachable_cases env st Hr)
    as [[Hbad ->]|[(Hok & He & ->)|(Hok & Hne & Hinv)]].
  - by destruct (main_setup_failed env Hbad) as [e ->].
  - by rewrite main_empty.
  - destruct Hr as [sched Hrun].
    assert (in_turn env [] (history (main env)) /\ left_behind env (main env)) as [Hturn Hleft].
    { destruct Hok as [[u Hdirs] [nested Hglob]]. unfold main.
      rewrite Hdirs, Hglob, files_nonempty_length by done.
      apply loop_in_turn; [done|]. by constructor. }
    by destruct (run_in_turn sched (main env) st (main_inv env Hok Hne) Hturn Hleft Hrun).
Qed.


Lemma calls_NoDup st : reachable env st -> NoDup (calls (history st)).
Proof.
  intros Hr. destruct (reachable_cases env st Hr)
    as [[Hbad ->]|[(Hok & He & ->)|(Hok & Hne & Hinv)]].
  - destruct (main_setup_failed env Hbad) as [e ->]. apply NoDup_nil_2.
  - rewrite main_empty by done. apply NoDup_nil_2.
  - destruct Hinv as (finished & lines & _ & Hctl & _). unfold control_ok in Hctl.
    pose proof (files_NoDup env) as Hnd.
    destruct (control st) as [f tasks rest results| |]; try done.
    + destruct Hctl as (Hfiles & _ & -> & _).
      rewrite Hfiles in Hnd. change (f :: rest) with ([f] ++ rest) in Hnd.
      rewrite app_assoc in Hnd. by apply NoDup_app in Hnd as [? _].
    + destruct Hctl as (Hfiles & _ & ->). by rewrite <- Hfiles.
Qed.

(** Once [convertAndCompressOne] has been called on a file, a task of a
    file called before it gets an I/O completion only if that earlier file
    failed. *)
Lemma late_deliveries_are_to_failed_files st h1 f h2 t s s' :
  reachable env st ->
  history st = h1 ++ Called f :: h2 ->
  Delivered t s s' ∈ h2 ->
  t_src t ∈ calls h1 ->
  verdict env (t_src t) = Failed.
Proof.
  intros Hr Hh Hin Hsrc.
  pose proof (deliveries_in_turn st Hr) as Hturn.
  pose proof (calls_NoDup st Hr) as Hnd.
  apply list_elem_of_split in Hin as (a & b & ->).
  rewrite Hh in Hturn, Hnd.
  replace (h1 ++ Called f :: a ++ Delivered t s s' :: b)
    with ((h1 ++ Called f :: a) ++ Delivered t s s' :: b) in Hturn, Hnd
    by (by rewrite <- app_assoc).
  apply in_turn_app in Hturn as [_ [[Hlast|[_ Hv]] _]]; [|done].
  exfalso. rewrite calls_app in Hnd. apply NoDup_app in Hnd as [Hnd _].
  rewrite app_nil_l, calls_app in Hlast.
  change (calls (Called f :: a)) with (f :: calls a) in Hlast.
  rewrite calls_app in Hnd. change (calls (Called f :: a)) with (f :: calls a) in Hnd.
  rewrite last_app_cons in Hlast. apply last_Some_elem_of in Hlast.
  apply NoDup_app in Hnd as (_ & Hsep & _). by apply (Hsep (t_src t)).
Qed.

End Turns.

(** ** The claims of the specification *)

Section Claims.

Context `{PathLib}.
Variable env : Env.

(** C1.  The derivatives planned for a source file depend on nothing but
    its extension, compared without regard to case: [.png] gives the JPEG
    (quality 90, mozjpeg) followed by the WebP (quality 85); [.jpg] and
    [.jpeg] give the WebP (quality 85) alone; any other extension gives
    nothing.  Two files whose extensions agree up to case have the same
    plan, in any environment. *)
Theorem planned_by_extension (srcPath : string) :
  (same_nocase (extname srcPath) ".png" ->
     planned env srcPath = [(".jpg", jpeg 90 true); (".webp", webp 85)]) /\
  (same_nocase (extname srcPath) ".jpg" \/ same_nocase (extname srcPath) ".jpeg" ->
     planned env srcPath = [(".webp", webp 85)]) /\
  (~ same_nocase (extname srcPath) ".png" ->
   ~ same_nocase (extname srcPath) ".jpg" ->
   ~ same_nocase (extname srcPath) ".jpeg" ->
     planned env srcPath = []) /\
  (forall env' other,
     same_nocase (extname other) (extname srcPath) ->
     planned env' other = planned env srcPath).
Proof.
  unfold planned, convertAndCompressOne, isPng, isJpeg, same_nocase.
  change (toLowerCase ".png") with ".png".
  change (toLowerCase ".jpg") with ".jpg".
  change (toLowerCase ".jpeg") with ".jpeg".
  repeat split.
  - intros ->. done.
  - intros [-> | ->]; done.
  - intros Hpng Hjpg Hjpeg. by rewrite !bool_decide_eq_false_2.
  - intros env' other ->. by repeat case_bool_decide.
Qed.

(** C2, as amended.  [tinifyCompressBuffer] ends in one of five ways: the
    four of the contract (no credential: configuration error; a response
    to the upload that is not 2xx or has no location: upload error; a
    response to the download that is not 2xx: download error; otherwise
    the downloaded bytes), or, when one of the two HTTP requests itself
    rejects, with that rejection.  Each way is taken exactly under its
    condition. *)
Theorem compress_outcomes (inputBuffer : Buffer) :
  (compress_contract env inputBuffer (tinifyCompressBuffer env inputBuffer) \/
   exists r, request_rejected env inputBuffer r /\
             tinifyCompressBuffer env inputBuffer = inl (Raised Axios r)) /\
  (truthy (API_KEY env) = None ->
     tinifyCompressBuffer env inputBuffer = inl NoApiKey) /\
  (forall key res,
     truthy (API_KEY env) = Some key ->
     axios_post env key inputBuffer = Fulfilled res ->
     (non2xx (shrink_status res) = true ->
        tinifyCompressBuffer env inputBuffer
        = inl (ShrinkFailed (shrink_status res) (shrink_message res))) /\
     (non2xx (shrink_status res) = false -> truthy (shrink_location res) = None ->
        tinifyCompressBuffer env inputBuffer = inl NoLocation) /\
     (forall url out,
        non2xx (shrink_status res) = false -> truthy (shrink_location res) = Some url ->
        axios_get env key url = Fulfilled out ->
        tinifyCompressBuffer env inputBuffer
        = if non2xx (output_status out) then inl (DownloadFailed (output_status out))
          else inr (output_data out))).
Proof.
  unfold tinifyCompressBuffer. split; [|split].
  - destruct (truthy (API_KEY env)) as [key|] eqn:Hkey.
    2:{ left. by apply contract_configuration. }
    destruct (axios_post env key inputBuffer) as [res|r] eqn:Hpost.
    2:{ right. exists r. split; [|done]. exists key. eauto. }
    destruct (non2xx (shrink_status res)) eqn:Hst.
    { left. eapply contract_upload; eauto. }
    destruct (truthy (shrink_location res)) as [url|] eqn:Hloc.
    2:{ left. eapply contract_upload; eauto. }
    destruct (axios_get env key url) as [out|r] eqn:Hget.
    2:{ right. exists r. split; [|done]. exists key. split; [done|]. right. eauto 10. }
    destruct (non2xx (output_status out)) eqn:Hout.
    + left. eapply contract_download; eauto.
    + left. eapply contract_success; eauto.
  - by intros ->.
  - intros key res -> ->. repeat split.
    + by intros ->.
    + by intros -> ->.
    + by intros url out -> -> ->.
Qed.

(** C3.  Whatever the schedule, an error raised while a source file is
    processed never stops the batch.  The exit code is 1 exactly when the
    set-up (creating the output directory, listing the input directory)
    rejects.  When the set-up goes through, every run can be carried on
    until the process exits, no run is longer than the potential of its
    first state, and at the exit the code is 0, [convertAndCompressOne] has
    been called on every file in order, and the console holds one status
    line per file, in order, that tells how that file ended: its own
    failure for a file that failed, and nothing of it for the others. *)
Theorem per_file_errors_never_abort (st : State) :
  reachable env st ->
  (exit_code st = Some 1%Z <-> setup_failed env) /\
  (setup_ok env ->
     (exists sched st', run env sched st = Some st' /\ exit_code st' = Some 0%Z) /\
     (forall sched st', run env sched st = Some st' -> length sched <= potential env st) /\
     (exited st ->
        exit_code st = Some 0%Z /\
        calls (history st) = files env /\
        reports (console st) = map (fun f => (f, verdict env f)) (files env))).
Proof.
  intros Hr. split.
  - destruct (reachable_cases env st Hr)
      as [[Hbad ->]|[(Hok & He & ->)|(Hok & Hne & Hinv)]].
    + (* the set-up rejected: [main] threw, nothing can run *)
      destruct (main_setup_failed env Hbad) as [e ->]. done.
    + (* nothing to do: [main] returned *)
      rewrite main_empty by done. split; [done|]. intros Hbad.
      destruct (setup_exclusive env Hok Hbad).
    + (* the loop runs: it never throws *)
      split.
      * intros Hex. destruct Hinv as (? & ? & _ & Hctl & _).
        unfold exit_code in Hex. unfold control_ok in Hctl.
        destruct (control st); try done. by destruct (quiescent st).
      * intros Hbad. destruct (setup_exclusive env Hok Hbad).
  - intros Hok. split; [by apply can_exit|]. split.
    + intros sched st' Hrun. apply run_bounded in Hrun. lia.
    + intros Hex. by apply at_exit.
Qed.

(** C4, as amended.  When the batch is over, the last line of the console
    is the one tally line; it carries the number of source files that
    succeeded and the number of source files enumerated, and no count of
    skipped or failed files.  If one file of the batch fails and every
    other one succeeds, the tally reads [n - 1] of [n]: the failed file is
    the difference of its two numbers. *)
Theorem tally_counts_succeeded_of_total (st : State) :
  setup_ok env -> files env <> [] -> reachable env st -> exited st ->
  last (console st)
    = Some (LDone (succeeded (summary_of env (files env))) (length (files env))) /\
  tallies (console st) = [(succeeded (summary_of env (files env)), length (files env))] /\
  (forall f0,
     f0 ∈ files env -> verdict env f0 = Failed ->
     (forall f, f ∈ files env -> f <> f0 -> verdict env f = Succeeded) ->
     succeeded (summary_of env (files env)) = length (files env) - 1 /\
     length (files env) - succeeded (summary_of env (files env)) = 1 /\
     failed (summary_of env (files env)) = 1).
Proof.
  intros Hok Hne Hr Hex.
  destruct (exit_state env st (reachable_inv env st Hok Hne Hr) Hex)
    as (_ & _ & _ & lines & Hlines & Hcon).
  split; [|split].
  - rewrite Hcon, !app_assoc. apply last_snoc.
  - rewrite Hcon. unfold header. rewrite !tallies_app.
    by rewrite (tallies_lines env _ _ Hlines).
  - intros f0 Hin Hf0 Hothers. simpl.
    destruct (count_one_failed env (files env) f0 (files_NoDup env) Hin Hf0 Hothers)
      as (Hs & Hf & _). lia.
Qed.

(** C5.  In every state of every run, each [fs.writeFile] that went
    through wrote, for a task of the batch, the bytes
    [tinifyCompressBuffer] returned for what [sharp] made of the task's
    source; the disk is the initial disk with these writes replayed; so
    every file on disk either was there before the run or holds the
    compressed form of a derivative, never the encoder's own bytes. *)
Theorem only_compressed_bytes_are_written (st : State) :
  reachable env st ->
  (forall t c, (t, c) ∈ writes (history st) ->
     genuine env t /\
     exists buf, sharp env (t_src t) (t_enc t) = Fulfilled buf /\
                 tinifyCompressBuffer env buf = inr c) /\
  disk st = replay (disk0 env) (writes (history st)) /\
  (forall p b, disk st !! p = Some b ->
     disk0 env !! p = Some b \/ compressed_output env p b).
Proof.
  intros Hr.
  pose proof (fun t c => writes_are_compressed env st t c Hr) as Hw.
  split; [exact Hw|]. split; [by apply reachable_disk|].
  rewrite (reachable_disk env st Hr).
  revert Hw. generalize (writes (history st)) as ws.
  induction ws as [|[t c] ws IH] using rev_ind; intros Hw p b.
  - (* nothing written yet *)
    by left.
  - (* the last write, to [t_out t] *)
    unfold replay. rewrite foldl_app. simpl. rewrite lookup_insert.
    case_decide as Hp.
    + intros [= <-]. right. destruct (Hw t c) as (Hgen & buf & Hs & Hc).
      * apply elem_of_app. right. by left.
      * by exists t, buf.
    + apply IH. intros t' c' Hin. apply Hw. apply elem_of_app. by left.
Qed.

(** C7, as amended.  Without a credential the program still sets up,
    enumerates and runs to exit code 0, and writes nothing.  At the exit
    every qualifying file has an [ERROR] line.  Its error is the missing
    credential whenever [sharp] encodes all the derivatives of the file;
    since a task encodes before it looks for the credential, a file
    [sharp] rejects may carry the encoder's error instead. *)
Theorem missing_key_fails_each_file (st : State) :
  truthy (API_KEY env) = None -> setup_ok env -> reachable env st ->
  (exists sched st', run env sched st = Some st' /\ exit_code st' = Some 0%Z) /\
  disk st = disk0 env /\
  (exited st ->
     exit_code st = Some 0%Z /\
     calls (history st) = files env /\
     forall f, f ∈ files env -> qualifies env f ->
       exists e,
         LError f e ∈ console st /\
         (kind_of e = ConfigurationError \/ kind_of e = EncodingError) /\
         ((forall t, t ∈ tasks_of env f ->
             exists buf, sharp env (t_src t) (t_enc t) = Fulfilled buf) ->
          e = NoApiKey)).
Proof.
  intros Hkey Hok Hr. split; [by apply can_exit|]. split.
  - rewrite (reachable_disk env st Hr).
    replace (writes (history st)) with (@nil (Task * Buffer)); [done|].
    symmetry. apply elem_of_nil_inv. intros [t c] Hin.
    destruct (writes_are_compressed env st t c Hr Hin) as (_ & buf & _ & Hc).
    unfold tinifyCompressBuffer in Hc. by rewrite Hkey in Hc.
  - intros Hex. destruct (at_exit env st Hok Hr Hex) as (Hcode & Hcalls & _).
    split; [done|]. split; [done|].
    intros f Hf Hq.
    destruct (status_line env st f Hok Hr Hex Hf) as (l & Hl & Hline).
    destruct (qualifies_tasks env f Hq) as (ts & Hc & _).
    unfold line_ok in Hline. rewrite Hc in Hline.
    destruct Hline as [[Hall ->]|(t & e & Hin & Hout & ->)].
    + exfalso. apply tasks_nonempty in Hc. destruct ts as [|t ts]; [done|].
      simpl in Hall. apply andb_true_iff in Hall as [Ht _].
      unfold task_succeeds in Ht.
      by destruct (outcome_no_key env t Hkey) as [(r & _ & Ho)|(buf & _ & Ho)];
        rewrite Ho in Ht.
    + exists e. split; [done|]. split.
      * destruct (outcome_no_key env t Hkey) as [(r & _ & Ho)|(buf & _ & Ho)];
          rewrite Ho in Hout; injection Hout as <-; auto.
      * intros Hsharp. destruct (Hsharp t) as [buf Hb].
        { unfold tasks_of. by rewrite Hc. }
        destruct (outcome_no_key env t Hkey) as [(r & Hs & Ho)|(buf' & _ & Ho)].
        -- congruence.
        -- rewrite Ho in Hout. by injection Hout as <-.
Qed.

(** C9.  The enumerated list has no duplicate path: it holds exactly the
    paths some pattern matched, each once; and when the batch is over
    [convertAndCompressOne] has been called on exactly that list, hence
    once per source file. *)
Theorem files_are_enumerated_once :
  NoDup (files env) /\
  (forall nested, filesNested env = Fulfilled nested ->
     forall f, f ∈ files env <-> f ∈ concat nested) /\
  (setup_ok env ->
     forall st, reachable env st -> exited st -> calls (history st) = files env).
Proof.
  split; [apply files_NoDup|]. split; [intros nested Hn f; by apply files_elem|].
  intros Hok st Hr Hex. by destruct (at_exit env st Hok Hr Hex) as (_ & ? & _).
Qed.

(** C10.  When the enumeration finds no file, [main] prints its notice and
    returns: the console holds that line alone (no status line, no tally),
    [convertAndCompressOne] is never called, the disk is untouched, the
    exit code is 0, and there is nothing left to run. *)
Theorem nothing_to_do :
  setup_ok env -> files env = [] ->
  console (main env) = [LNoTargets] /\
  history (main env) = [] /\
  disk (main env) = disk0 env /\
  exit_code (main env) = Some 0%Z /\
  forall st, reachable env st -> st = main env.
Proof.
  intros Hok He. rewrite main_empty by done. repeat split.
  intros st Hr. rewrite <- main_empty by done. apply reachable_idle; auto.
Qed.

End Claims.

(** ** The claims on concrete worlds *)

Import Worlds.

Lemma drive_run `{PathLib} env fuel : forall st,
  run env (drive env fuel st).1 st = Some (drive env fuel st).2.
Proof.
  induction fuel as [|fuel IH]; intros st; simpl; [done|].
  destruct (next_pick st) as [p|]; [|done].
  destruct (fire env p st) as [st'|] eqn:Hf; [|done].
  specialize (IH st'). destruct (drive env fuel st') as [ps st'']. simpl in *.
  by rewrite Hf.
Qed.

Lemma finish_reachable env : reachable env (finish env).2.
Proof. exists (finish env).1. exact (drive_run env 64 (main env)). Qed.

(** The set-up fails: exit code 1, and nothing but the error on the console. *)
Example setup_failure_exits_with_1 :
  setup_failed no_after /\
  exit_code (main no_after) = Some 1%Z /\
  console (main no_after) = [LFatal (Raised Fs "EACCES: permission denied, mkdir")].
Proof.
  split; [left; by exists "EACCES: permission denied, mkdir"|].
  split; vm_compute; reflexivity.
Qed.

(** Two files with one base name, nothing refused: both succeed, and the
    path they share holds what was made from the second. *)
Example second_file_overwrites_first_when_none_fails :
  reports (console (finish same_base_ok).2)
  = [("/w/before/a.png", Succeeded); ("/w/before/a.jpg", Succeeded)] /\
  writes (history (finish same_base_ok).2)
  = [(a_png_jpg, [Byte.xcc; Byte.x41]); (a_png_webp, [Byte.xcc; Byte.x61]);
     (a_jpg_webp, [Byte.xcc; Byte.x62])] /\
  disk (finish same_base_ok).2 !! "/w/after/a.webp" = Some [Byte.xcc; Byte.x62].
Proof. repeat split; vm_compute; reflexivity. Qed.

(** C1 on a concrete path: an upper-case extension in a sub-directory. *)
Lemma planned_by_extension_witness :
  same_nocase (extname "/w/before/x/Photo.PNG") ".png" /\
  planned empty_dir "/w/before/x/Photo.PNG" = [(".jpg", jpeg 90 true); (".webp", webp 85)].
Proof.
  split; [reflexivity|].
  exact (proj1 (planned_by_extension empty_dir "/w/before/x/Photo.PNG") eq_refl).
Defined.

(** C2 on a concrete upload: the service answers 429. *)
Lemma compress_outcomes_witness :
  truthy (API_KEY one_refused) = Some "k3y" /\
  axios_post one_refused "k3y" [Byte.x63]
  = Fulfilled {| shrink_status := 429; shrink_location := None;
                 shrink_message := "Too many requests" |} /\
  tinifyCompressBuffer one_refused [Byte.x63] = inl (ShrinkFailed 429 "Too many requests").
Proof.
  split; [reflexivity|]. split; [reflexivity|].
  exact (proj1 (proj2 (proj2 (compress_outcomes one_refused [Byte.x63]))
                  "k3y" _ eq_refl eq_refl) eq_refl).
Defined.

Lemma setup_ok_one_refused : setup_ok one_refused.
Proof. split; [by exists tt|]. eexists. vm_compute. reflexivity. Qed.

Lemma exited_one_refused : exited (finish one_refused).2.
Proof. exists 0%Z. vm_compute. reflexivity. Qed.

(** C3 on a concrete batch: the last of three files fails, the run goes on
    to exit code 0 and every file has its line. *)
Lemma per_file_errors_never_abort_witness :
  reachable one_refused (finish one_refused).2 /\
  setup_ok one_refused /\
  exited (finish one_refused).2 /\
  exit_code (finish one_refused).2 = Some 0%Z /\
  reports (console (finish one_refused).2)
  = [("/w/before/a.png", Succeeded); ("/w/before/c.png", Succeeded);
     ("/w/before/b.jpg", Failed)].
Proof.
  split; [apply finish_reachable|]. split; [apply setup_ok_one_refused|].
  split; [apply exited_one_refused|].
  destruct (proj2 (per_file_errors_never_abort one_refused _ (finish_reachable one_refused))
              setup_ok_one_refused) as (_ & _ & Hexit).
  destruct (Hexit exited_one_refused) as (Hcode & _ & Hreports).
  split; [exact Hcode|]. rewrite Hreports. vm_compute. reflexivity.
Defined.

Lemma files_one_refused :
  files one_refused = ["/w/before/a.png"; "/w/before/c.png"; "/w/before/b.jpg"].
Proof. vm_compute. reflexivity. Qed.

(** C4 on the same batch: the tally reads 2 of 3. *)
Lemma tally_counts_succeeded_of_total_witness :
  setup_ok one_refused /\ files one_refused <> [] /\
  reachable one_refused (finish one_refused).2 /\ exited (finish one_refused).2 /\
  tallies (console (finish one_refused).2) = [(2, 3)].
Proof.
  split; [apply setup_ok_one_refused|].
  assert (files one_refused <> []) as Hne by (by rewrite files_one_refused).
  split; [exact Hne|].
  split; [apply finish_reachable|]. split; [apply exited_one_refused|].
  destruct (tally_counts_succeeded_of_total one_refused _ setup_ok_one_refused Hne
              (finish_reachable one_refused) exited_one_refused) as (_ & Htally & _).
  rewrite Htally. vm_compute. reflexivity.
Defined.

(** C4 as stated fails on that batch: two files succeeded, none was skipped,
    one failed, and no line of the console carries these three counts; the
    tally line carries 2 and 3. *)
Lemma tally_is_not_the_summary :
  reachable one_refused (finish one_refused).2 /\ exited (finish one_refused).2 /\
  console (finish one_refused).2
  = [LInput 3; LOutDir "/w/after";
     LOk "/w/before/a.png" ["/w/after/a.jpg"; "/w/after/a.webp"];
     LOk "/w/before/c.png" ["/w/after/c.jpg"; "/w/after/c.webp"];
     LError "/w/before/b.jpg" (ShrinkFailed 429 "Too many requests");
     LDone 2 3] /\
  summary_of one_refused (files one_refused)
  = {| succeeded := 2; skipped_files := 0; failed := 1 |} /\
  ~ emits_summary (console (finish one_refused).2)
      (summary_of one_refused (files one_refused)).
Proof.
  split; [apply finish_reachable|]. split; [apply exited_one_refused|].
  assert (console (finish one_refused).2
          = [LInput 3; LOutDir "/w/after";
             LOk "/w/before/a.png" ["/w/after/a.jpg"; "/w/after/a.webp"];
             LOk "/w/before/c.png" ["/w/after/c.jpg"; "/w/after/c.webp"];
             LError "/w/before/b.jpg" (ShrinkFailed 429 "Too many requests");
             LDone 2 3]) as Hcon by (vm_compute; reflexivity).
  assert (summary_of one_refused (files one_refused)
          = {| succeeded := 2; skipped_files := 0; failed := 1 |}) as Hsum
    by (vm_compute; reflexivity).
  split; [exact Hcon|]. split; [exact Hsum|].
  rewrite Hcon, Hsum. intros (l & Hin & Hnum).
  repeat (apply elem_of_cons in Hin as [->|Hin]); try discriminate Hnum.
  by apply elem_of_nil in Hin.
Qed.

(** C5 on the same batch: what [a.webp] holds came back from the compressor. *)
Lemma only_compressed_bytes_are_written_witness :
  reachable one_refused (finish one_refused).2 /\
  disk (finish one_refused).2 !! "/w/after/a.webp" = Some [Byte.xcc; Byte.x61] /\
  compressed_output one_refused "/w/after/a.webp" [Byte.xcc; Byte.x61].
Proof.
  split; [apply finish_reachable|].
  assert (disk (finish one_refused).2 !! "/w/after/a.webp" = Some [Byte.xcc; Byte.x61])
    as Hd by (vm_compute; reflexivity).
  split; [exact Hd|].
  destruct (only_compressed_bytes_are_written one_refused _ (finish_reachable one_refused))
    as (_ & _ & Hdisk).
  destruct (Hdisk _ _ Hd) as [H0|Hc]; [|exact Hc].
  vm_compute in H0. discriminate H0.
Defined.

(** C2 as stated fails when the network is down: [tinifyCompressBuffer]
    fails with the rejection of [axios.post], which is none of the three
    failures of the contract. *)
Lemma request_rejection_is_a_fifth_outcome :
  tinifyCompressBuffer offline [Byte.x41]
  = inl (Raised Axios "getaddrinfo ENOTFOUND api.tinify.com") /\
  ~ compress_contract offline [Byte.x41] (tinifyCompressBuffer offline [Byte.x41]).
Proof.
  assert (tinifyCompressBuffer offline [Byte.x41]
          = inl (Raised Axios "getaddrinfo ENOTFOUND api.tinify.com")) as Ht
    by reflexivity.
  split; [exact Ht|]. rewrite Ht. intros Hc.
  inversion Hc as [e Hkey Hkind|key res e Hkey Hpost|key res url out e Hkey Hpost|]; subst.
  - discriminate Hkey.
  - discriminate Hpost.
  - discriminate Hpost.
Qed.

Lemma setup_ok_no_key : setup_ok no_key.
Proof. split; [by exists tt|]. eexists. vm_compute. reflexivity. Qed.

Lemma exited_no_key : exited (finish no_key).2.
Proof. exists 0%Z. vm_compute. reflexivity. Qed.

Lemma console_no_key :
  console (finish no_key).2
  = [LInput 2; LOutDir "/w/after";
     LError "/w/before/corrupt.png"
       (Raised Sharp "Input file contains unsupported image format");
     LError "/w/before/b.jpg" NoApiKey;
     LDone 0 2].
Proof. vm_compute. reflexivity. Qed.

(** C7 on a concrete batch without credential. *)
Lemma missing_key_fails_each_file_witness :
  truthy (API_KEY no_key) = None /\ setup_ok no_key /\
  reachable no_key (finish no_key).2 /\ exited (finish no_key).2 /\
  exit_code (finish no_key).2 = Some 0%Z /\
  disk (finish no_key).2 = disk0 no_key.
Proof.
  split; [reflexivity|]. split; [apply setup_ok_no_key|].
  split; [apply finish_reachable|]. split; [apply exited_no_key|].
  destruct (missing_key_fails_each_file no_key _ eq_refl setup_ok_no_key
              (finish_reachable no_key)) as (_ & Hdisk & Hexit).
  destruct (Hexit exited_no_key) as (Hcode & _).
  split; [exact Hcode|exact Hdisk].
Defined.

(** C7 as stated fails on that batch: the picture [sharp] cannot decode is
    reported with the encoder's error, not with the missing credential. *)
Lemma undecodable_file_fails_for_encoding :
  truthy (API_KEY no_key) = None /\
  reachable no_key (finish no_key).2 /\ exited (finish no_key).2 /\
  "/w/before/corrupt.png" ∈ files no_key /\
  qualifies no_key "/w/before/corrupt.png" /\
  ~ all_fail_for_configuration no_key (finish no_key).2.
Proof.
  assert ("/w/before/corrupt.png" ∈ files no_key) as Hin
    by (replace (files no_key) with ["/w/before/corrupt.png"; "/w/before/b.jpg"]
          by (vm_compute; reflexivity); by left).
  assert (qualifies no_key "/w/before/corrupt.png") as Hq by (vm_compute; discriminate).
  split; [reflexivity|]. split; [apply finish_reachable|]. split; [apply exited_no_key|].
  split; [exact Hin|]. split; [exact Hq|].
  intros Hall. destruct (Hall _ Hin Hq) as (e & He & Hk).
  rewrite console_no_key in He.
  repeat (apply elem_of_cons in He as [He|He]); try discriminate He.
  - injection He as ->. discriminate Hk.
  - by apply elem_of_nil in He.
Qed.

(** C9 on a concrete batch. *)
Lemma files_are_enumerated_once_witness :
  setup_ok one_refused /\ reachable one_refused (finish one_refused).2 /\
  exited (finish one_refused).2 /\
  calls (history (finish one_refused).2)
  = ["/w/before/a.png"; "/w/before/c.png"; "/w/before/b.jpg"].
Proof.
  split; [apply setup_ok_one_refused|]. split; [apply finish_reachable|].
  split; [apply exited_one_refused|].
  rewrite (proj2 (proj2 (files_are_enumerated_once one_refused)) setup_ok_one_refused
             _ (finish_reachable one_refused) exited_one_refused).
  apply files_one_refused.
Defined.

Lemma setup_ok_empty_dir : setup_ok empty_dir.
Proof. split; [by exists tt|]. eexists. vm_compute. reflexivity. Qed.

(** C10 on an empty input directory. *)
Lemma nothing_to_do_witness :
  setup_ok empty_dir /\ files empty_dir = [] /\
  console (main empty_dir) = [LNoTargets] /\ exit_code (main empty_dir) = Some 0%Z.
Proof.
  split; [apply setup_ok_empty_dir|].
  assert (files empty_dir = []) as He by (vm_compute; reflexivity).
  split; [exact He|].
  destruct (nothing_to_do empty_dir setup_ok_empty_dir He) as (Hc & _ & _ & Hx & _).
  split; [exact Hc|exact Hx].
Defined.

(** C8, on the code.  In the batch [a.png], [a.jpg], when the upload of the
    JPEG made from [a.png] is refused while the WebP of [a.png] is still
    being encoded, [Promise.all] rejects at once, [main] reports the error
    and calls [convertAndCompressOne] on [a.jpg]; the encoding of the WebP
    of [a.png] completes after that call: the tasks of the earlier file
    have not all completed when the later file begins. *)
Theorem sibling_outlives_its_file :
  files same_base = ["/w/before/a.png"; "/w/before/a.jpg"] /\
  tasks_of same_base "/w/before/a.png" = [a_png_jpg; a_png_webp] /\
  exists st,
    run same_base overlap (main same_base) = Some st /\
    history st =
      [ Called "/w/before/a.png";
        Delivered a_png_jpg AwaitSharp (AwaitPost "k3y" [Byte.x41]);
        Delivered a_png_jpg (AwaitPost "k3y" [Byte.x41])
          (Rejected (ShrinkFailed 429 "Too many requests"));
        Called "/w/before/a.jpg";
        Delivered a_png_webp AwaitSharp (AwaitPost "k3y" [Byte.x61]) ].
Proof.
  split; [vm_compute; reflexivity|]. split; [vm_compute; reflexivity|].
  eexists. split; [vm_compute; reflexivity|]. vm_compute. reflexivity.
Qed.

(** C6, on the code.  In the same batch the WebP of [a.png] and the WebP of
    [a.jpg] have the same output path.  On the schedule [overtaking] the
    task left behind by [a.png], the file processed first, writes after the
    task of [a.jpg], the file processed second: at the exit the path holds
    the bytes made from [a.png]. *)
Theorem first_file_overwrites_second :
  files same_base = ["/w/before/a.png"; "/w/before/a.jpg"] /\
  a_png_webp ∈ tasks_of same_base "/w/before/a.png" /\
  a_jpg_webp ∈ tasks_of same_base "/w/before/a.jpg" /\
  t_out a_png_webp = t_out a_jpg_webp /\
  exists st,
    run same_base overtaking (main same_base) = Some st /\
    exit_code st = Some 0%Z /\
    reports (console st) = [("/w/before/a.png", Failed); ("/w/before/a.jpg", Succeeded)] /\
    writes (history st)
    = [(a_jpg_webp, [Byte.xcc; Byte.x62]); (a_png_webp, [Byte.xcc; Byte.x61])] /\
    disk st !! "/w/after/a.webp" = Some [Byte.xcc; Byte.x61].
Proof.
  split; [vm_compute; reflexivity|].
  split; [vm_compute; right; left|].
  split; [vm_compute; left|].
  split; [reflexivity|].
  eexists. split; [vm_compute; reflexivity|].
  repeat split; vm_compute; reflexivity.
Qed.

(** ** More properties of the code *)

Section Order.

Context `{PathLib}.
Variable env : Env.

(** X1.  A source file that does not fail is over before the next one
    starts: once [convertAndCompressOne] has been called on another file, no
    I/O completion is delivered any more to a task of a file called earlier,
    unless that file fails.  So the only tasks that run beside a later file
    are those a failed file left behind. *)
Theorem files_that_do_not_fail_are_over_before_the_next_starts
  (st : State) (h1 h2 : list Event) (f : string) (t : Task) :
  reachable env st ->
  history st = h1 ++ Called f :: h2 ->
  t_src t ∈ calls h1 ->
  verdict env (t_src t) <> Failed ->
  forall s s', Delivered t s s' ∉ h2.
Proof.
  intros Hr Hh Hsrc Hv s s' Hin. apply Hv.
  by apply (late_deliveries_are_to_failed_files env st h1 f h2 t s s').
Qed.

(** X2.  In every state of every run, the files [convertAndCompressOne] has
    been called on are a prefix of the enumerated list, each called once;
    and every one of them but the one [main] is waiting for has its status
    line on the console, in the same order: the loop starts a file only when
    all the files before it have been reported. *)
Theorem files_start_in_order_after_their_predecessors (st : State) :
  reachable env st ->
  calls (history st) `prefix_of` files env /\
  NoDup (calls (history st)) /\
  calls (history st) = map fst (reports (console st)) ++ awaited st.
Proof.
  intros Hr. split; [|split; [by apply (calls_NoDup env)|]].
  - destruct (reachable_cases env st Hr)
      as [[Hbad ->]|[(Hok & He & ->)|(Hok & Hne & Hinv)]].
    + destruct (main_setup_failed env Hbad) as [e ->]. apply prefix_nil.
    + rewrite main_empty by done. apply prefix_nil.
    + destruct Hinv as (finished & lines & _ & Hctl & _). unfold control_ok in Hctl.
      destruct (control st) as [f tasks rest results| |]; try done.
      * destruct Hctl as (-> & _ & -> & _). exists rest. by rewrite <- app_assoc.
      * destruct Hctl as (<- & _ & ->). done.
  - destruct (reachable_cases env st Hr)
      as [[Hbad ->]|[(Hok & He & ->)|(Hok & Hne & Hinv)]].
    + by destruct (main_setup_failed env Hbad) as [e ->].
    + by rewrite main_empty.
    + destruct Hinv as (finished & lines & Hlines & Hctl & _). unfold control_ok in Hctl.
      assert (map fst (reports lines) = finished) as Hfin.
      { rewrite (reports_lines env _ _ Hlines), map_map. simpl. apply map_id. }
      unfold awaited. destruct (control st) as [f tasks rest results| |]; try done.
      * destruct Hctl as (_ & -> & -> & _). unfold header.
        by rewrite reports_app, map_app, Hfin.
      * destruct Hctl as (_ & -> & ->). unfold header.
        rewrite !reports_app, !map_app, Hfin. simpl. by rewrite !app_nil_r.
Qed.

Lemma todo_weight_bound todo :
  todo_weight env todo = 4 * length (concat (map (tasks_of env) todo)) /\
  todo_weight env todo <= 8 * length todo.
Proof.
  induction todo as [|f todo [IH1 IH2]]; [done|].
  rewrite todo_weight_cons. simpl. rewrite length_app. split; [lia|].
  assert (length (tasks_of env f) <= 2); [|lia].
  unfold tasks_of, convertAndCompressOne. repeat case_match; simpl; lia.
Qed.

Lemma potential_main : potential env (main env) <= todo_weight env (files env).
Proof.
  unfold main. repeat case_match; try (unfold potential; simpl; lia).
  rewrite potential_loop. simpl. unfold tasks_weight. simpl. lia.
Qed.

(** X3.  A run delivers at most four I/O completions per derivative task
    (the encoding, the upload, the download, the write), hence at most eight
    per enumerated file: whatever the schedule and whatever fails, the batch
    comes to an end after a bounded number of steps. *)
Theorem a_run_takes_at_most_four_completions_per_task (sched : list Pick) (st : State) :
  run env sched (main env) = Some st ->
  length sched <= 4 * length (batch_tasks env) /\
  length sched <= 8 * length (files env).
Proof.
  intros Hrun. apply run_bounded in Hrun.
  pose proof potential_main as Hm.
  destruct (todo_weight_bound (files env)) as [Heq Hle].
  unfold batch_tasks. lia.
Qed.

(** X4.  When the set-up fails (the output directory cannot be created, or
    the enumeration rejects), no file is processed: [main] is over at once,
    [convertAndCompressOne] is never called, nothing is written, the console
    holds the error alone and the exit code is 1.  When it is [fs.mkdir]
    that rejects, the error printed is its rejection, whatever the
    enumeration would have given. *)
Theorem failed_setup_processes_nothing (st : State) :
  setup_failed env -> reachable env st ->
  st = main env /\
  history st = [] /\
  disk st = disk0 env /\
  exit_code st = Some 1%Z /\
  (exists e, console st = [LFatal e]) /\
  (forall r, ensureDirs env = RejectedBy r -> console st = [LFatal (Raised Fs r)]).
Proof.
  intros Hbad Hr.
  assert (st = main env) as -> by (apply reachable_idle; auto).
  split; [done|].
  assert (forall r, ensureDirs env = RejectedBy r ->
            console (main env) = [LFatal (Raised Fs r)]) as Hmkdir.
  { intros r Hdirs. unfold main. by rewrite Hdirs. }
  destruct (main_setup_failed env Hbad) as [e He]. rewrite He in *. simpl.
  repeat split; [by exists e|exact Hmkdir].
Qed.

End Order.

Section Disk.

Context `{PathLib}.
Variable env : Env.

Lemma replay_lookup (d : gmap string Buffer) ws p :
  replay d ws !! p = d !! p \/
  exists t c, (t, c) ∈ ws /\ t_out t = p /\ replay d ws !! p = Some c.
Proof.
  induction ws as [|[t c] ws IH] using rev_ind; [by left|].
  unfold replay in *. rewrite foldl_app. simpl. rewrite lookup_insert.
  case_decide as Hp.
  - right. exists t, c. split; [|done]. apply elem_of_app. right. by left.
  - destruct IH as [IH|(t' & c' & Hin & Hout & Hl)]; [by left|].
    right. exists t', c'. split; [|done]. apply elem_of_app. by left.
Qed.

Lemma tasks_by_extension f t :
  t ∈ tasks_of env f ->
  (t_ext t = ".jpg" /\ toLowerCase (extname f) = ".png") \/
  (t_ext t = ".webp" /\
   (toLowerCase (extname f) = ".png" \/ toLowerCase (extname f) = ".jpg" \/
    toLowerCase (extname f) = ".jpeg")).
Proof.
  unfold tasks_of, convertAndCompressOne, isPng, isJpeg.
  repeat case_bool_decide; simpl.
  all: repeat (rewrite ?elem_of_cons, ?elem_of_nil); intros Hin.
  all: repeat destruct Hin as [Hin|Hin]; try done; subst; simpl; auto 10.
Qed.

(** X5.  A run never removes a file, and it changes or creates files only at
    the output paths of the batch: a path whose content differs from the
    initial disk is the join of the output directory with the base name of an
    enumerated source file and [.jpg] (for a PNG source) or [.webp] (for a
    PNG or JPEG source).  In particular nothing else on the disk is
    touched. *)
Theorem only_output_paths_are_touched (st : State) :
  reachable env st ->
  (forall p, is_Some (disk0 env !! p) -> is_Some (disk st !! p)) /\
  (forall p, disk st !! p <> disk0 env !! p ->
     exists f ext,
       f ∈ files env /\
       p = withExt (AFTER_DIR env) (baseNameNoExt f) ext /\
       ((ext = ".jpg" /\ toLowerCase (extname f) = ".png") \/
        (ext = ".webp" /\
         (toLowerCase (extname f) = ".png" \/ toLowerCase (extname f) = ".jpg" \/
          toLowerCase (extname f) = ".jpeg")))).
Proof.
  intros Hr. rewrite (reachable_disk env st Hr). split.
  - intros p Hp.
    destruct (replay_lookup (disk0 env) (writes (history st)) p)
      as [->|(t & c & _ & _ & ->)]; [done|by eexists].
  - intros p Hp.
    destruct (replay_lookup (disk0 env) (writes (history st)) p)
      as [Heq|(t & c & Hin & Hout & _)]; [done|].
    destruct (writes_are_compressed env st t c Hr Hin) as ((f & Hf & Ht) & _).
    destruct (task_of_file env f t Ht) as (_ & Hpath & _).
    exists f, (t_ext t). split; [done|]. split; [by rewrite <- Hout|].
    by apply tasks_by_extension.
Qed.

End Disk.

Section Requests.

Context `{PathLib}.
Variable env : Env.

Lemma on_path_no_key t s :
  truthy (API_KEY env) = None -> on_path env t s ->
  s = AwaitSharp \/ exists e, s = Rejected e.
Proof.
  intros Hkey [n ->]. induction n as [|n IH]; [by left|].
  simpl. destruct IH as [->|[e ->]]; right; simpl.
  - rewrite Hkey. destruct (sharp env (t_src t) (t_enc t)); eauto.
  - eauto.
Qed.

(** X6.  Without a credential no request is ever sent and nothing is
    written: the only I/O completion a task ever gets is the one of its
    encoding, and the task is rejected right after it. *)
Theorem without_credential_nothing_is_requested (st : State) :
  truthy (API_KEY env) = None -> reachable env st ->
  (forall t s s', Delivered t s s' ∈ history st ->
     s = AwaitSharp /\ exists e, s' = Rejected e) /\
  writes (history st) = [].
Proof.
  intros Hkey Hr.
  assert (forall t s s', Delivered t s s' ∈ history st ->
            s = AwaitSharp /\ exists e, s' = Rejected e) as Hd.
  { intros t s s' Hin.
    destruct (delivered_ok env st t s s' Hr Hin) as (_ & Hpath & Hpend & ->).
    destruct (on_path_no_key t s Hkey Hpath) as [->|[e ->]]; [|done].
    split; [done|].
    destruct (on_path_no_key t _ Hkey (on_path_resume env t _ Hpath)) as [He|He];
      [|done].
    exfalso. simpl in He. rewrite Hkey in He.
    by destruct (sharp env (t_src t) (t_enc t)). }
  split; [exact Hd|].
  apply elem_of_nil_inv. intros [t c] Hin. apply elem_of_writes in Hin.
  by destruct (Hd _ _ _ Hin) as [? _].
Qed.

Lemma on_path_data t s : on_path env t s -> stage_data env t s.
Proof.
  intros [n ->]. induction n as [|n IH]; [done|].
  simpl. destruct (Nat.iter n (resume env t) AwaitSharp) as [|key buf|key url|c| |e];
    simpl in *.
  - repeat case_match; simpl; auto.
  - destruct IH as [Hkey Hsharp]. repeat case_match; simpl; eauto 10.
  - destruct IH as (Hkey & buf & res & Hsharp & Hpost & Hst & Hloc).
    repeat case_match; simpl; eauto 20.
  - by repeat case_match.
  - done.
  - done.
Qed.

(** X7.  What a task holds when it is suspended comes from where the code
    says: the body of its upload is what [sharp] made of its own source with
    its own encoder, the URL of its download is the location the service
    answered to that upload with a 2xx status, the bytes it writes are the
    data of the 2xx answer to that download, and both requests carry the
    configured credential.  This holds of every completion delivered and of
    every task in flight. *)
Theorem requests_carry_what_the_code_computed (st : State) :
  reachable env st ->
  (forall t s s', Delivered t s s' ∈ history st ->
     stage_data env t s /\ stage_data env t s') /\
  Forall (fun ts => stage_data env ts.1 ts.2) (current st ++ detached st).
Proof.
  intros Hr. split.
  - intros t s s' Hin.
    destruct (delivered_ok env st t s s' Hr Hin) as (_ & Hpath & _ & ->).
    split; apply on_path_data; [done|by apply on_path_resume].
  - destruct (reachable_cases env st Hr)
      as [[Hbad ->]|[(Hok & He & ->)|(Hok & Hne & Hinv)]].
    + by destruct (main_setup_failed env Hbad) as [e ->].
    + by rewrite main_empty.
    + destruct Hinv as (finished & lines & _ & Hctl & Hdet & _).
      apply Forall_app. split.
      * unfold current. unfold control_ok in Hctl.
        destruct (control st) as [f tasks rest results| |]; try done.
        destruct Hctl as (_ & _ & _ & _ & _ & Htasks & _).
        eapply Forall_impl; [exact Htasks|]. intros [t s] [Hp _]. by apply on_path_data.
      * eapply Forall_impl; [exact Hdet|]. intros [t s] [_ Hp]. by apply on_path_data.
Qed.

End Requests.

Section Console.

Context `{PathLib}.
Variable env : Env.

Lemma count_verdict_le v fs : count_verdict env v fs <= length fs.
Proof.
  induction fs as [|f fs IH]; [done|]. rewrite count_verdict_cons. simpl.
  case_bool_decide; lia.
Qed.

Lemma count_verdict_all v fs :
  count_verdict env v fs = length fs <-> forall f, f ∈ fs -> verdict env f = v.
Proof.
  induction fs as [|f fs IH].
  - split; [|done]. intros _ f Hf. by apply elem_of_nil in Hf.
  - rewrite count_verdict_cons. simpl. pose proof (count_verdict_le v fs) as Hle.
    case_bool_decide as Hv; split.
    + intros Hc f' [->|Hf']%elem_of_cons; [done|]. apply IH; [lia|done].
    + intros Hall. rewrite (proj2 IH); [lia|]. intros f' Hf'. apply Hall. by right.
    + lia.
    + intros Hall. destruct Hv. apply Hall. by left.
Qed.

Lemma count_verdict_none v fs :
  count_verdict env v fs = 0 <-> forall f, f ∈ fs -> verdict env f <> v.
Proof.
  induction fs as [|f fs IH].
  - split; [|done]. intros _ f Hf. by apply elem_of_nil in Hf.
  - rewrite count_verdict_cons. case_bool_decide as Hv; split.
    + simpl. lia.
    + intros Hnone. destruct (Hnone f); [by left|done].
    + simpl. intros Hc f' [->|Hf']%elem_of_cons; [done|]. by apply IH.
    + simpl. intros Hnone. apply IH. intros f' Hf'. apply Hnone. by right.
Qed.

Lemma count_verdict_partition fs :
  count_verdict env Succeeded fs + count_verdict env Skipped fs
  + count_verdict env Failed fs = length fs.
Proof.
  induction fs as [|f fs IH]; [done|]. rewrite !count_verdict_cons. simpl.
  destruct (verdict env f); repeat case_bool_decide; simplify_eq; lia.
Qed.

(** X8.  At the exit the last line of the console is the tally [ok/n]: [n]
    is the number of enumerated files, [ok <= n], the tally is full exactly
    when every file succeeded (a skipped file counts against it like a failed
    one), it is [0] exactly when none succeeded, and the files that are
    missing from [ok] are the skipped and the failed ones. *)
Theorem tally_is_full_exactly_when_all_succeed (st : State) :
  setup_ok env -> files env <> [] -> reachable env st -> exited st ->
  exists ok n,
    last (console st) = Some (LDone ok n) /\
    n = length (files env) /\
    ok <= n /\
    (ok = n <-> forall f, f ∈ files env -> verdict env f = Succeeded) /\
    (ok = 0 <-> forall f, f ∈ files env -> verdict env f <> Succeeded) /\
    ok + count_verdict env Skipped (files env) + count_verdict env Failed (files env) = n.
Proof.
  intros Hok Hne Hr Hex.
  destruct (exit_state env st (reachable_inv env st Hok Hne Hr) Hex)
    as (_ & _ & _ & lines & Hlines & Hcon).
  exists (count_verdict env Succeeded (files env)), (length (files env)).
  split; [rewrite Hcon, !app_assoc; apply last_snoc|]. split; [done|].
  split; [apply count_verdict_le|]. split; [apply count_verdict_all|].
  split; [apply count_verdict_none|apply count_verdict_partition].
Qed.

Lemma line_ok_status f l : line_ok env f l -> status_of env f l.
Proof.
  intros Hl. pose proof (line_ok_verdict env f l Hl) as Hv.
  unfold line_ok in Hl. unfold status_of, tasks_of.
  destruct (convertAndCompressOne env f) as [ts|] eqn:Hc.
  - destruct Hl as [[Hall ->]|(t & e & Hin & Hout & ->)]; injection Hv as <-; [done|].
    by exists t, e.
  - subst l. by injection Hv as <-.
Qed.

(** X9.  The whole console at the exit of a batch that is not empty: the
    two header lines, then one status line per enumerated file in the order
    of the enumeration, then the tally.  The line of a skipped file is its
    [SKIP] line; the line of a file that succeeded is its [OK] line with the
    output paths of its derivatives in the order they were planned; the
    line of a failed file is an [ERROR] line with the error of one of its
    tasks that fail. *)
Theorem console_at_exit (st : State) :
  setup_ok env -> files env <> [] -> reachable env st -> exited st ->
  exists lines,
    console st
    = [LInput (length (files env)); LOutDir (AFTER_DIR env)] ++ lines
      ++ [LDone (count_verdict env Succeeded (files env)) (length (files env))] /\
    Forall2 (status_of env) (files env) lines.
Proof.
  intros Hok Hne Hr Hex.
  destruct (exit_state env st (reachable_inv env st Hok Hne Hr) Hex)
    as (_ & _ & _ & lines & Hlines & Hcon).
  exists lines. split; [exact Hcon|].
  eapply Forall2_impl; [exact Hlines|]. apply line_ok_status.
Qed.

Lemma stderr_lines fs lines :
  Forall2 (line_ok env) fs lines ->
  omap error_file (List.filter to_stderr lines)
  = List.filter (fun f => bool_decide (verdict env f = Failed)) fs /\
  Forall (fun l => exists f e, l = LError f e) (List.filter to_stderr lines).
Proof.
  induction 1 as [|f l fs lines Hl _ [IH1 IH2]]; [done|].
  apply line_ok_verdict in Hl. simpl.
  destruct l; simpl in Hl; try done; injection Hl as -> Hv; simpl; rewrite <- Hv; simpl.
  - done.
  - done.
  - unfold error_file at 1. split; [by f_equal|]. constructor; [eauto|done].
Qed.

(** X10.  At the exit of a batch whose set-up went through, the lines
    printed with [console.error] are the [ERROR] lines of the files that
    failed, one per file, in the order of the enumeration, and nothing
    else. *)
Theorem stderr_has_one_line_per_failed_file (st : State) :
  setup_ok env -> reachable env st -> exited st ->
  omap error_file (List.filter to_stderr (console st))
  = List.filter (fun f => bool_decide (verdict env f = Failed)) (files env) /\
  Forall (fun l => exists f e, l = LError f e) (List.filter to_stderr (console st)) /\
  length (List.filter to_stderr (console st)) = count_verdict env Failed (files env).
Proof.
  intros Hok Hr Hex.
  assert (omap error_file (List.filter to_stderr (console st))
          = List.filter (fun f => bool_decide (verdict env f = Failed)) (files env) /\
          Forall (fun l => exists f e, l = LError f e)
            (List.filter to_stderr (console st))) as [Hmap Hall].
  { destruct (reachable_cases env st Hr)
      as [[Hbad ->]|[(_ & He & ->)|(_ & Hne & Hinv)]].
    - destruct (setup_exclusive env Hok Hbad).
    - rewrite main_empty by done. by rewrite He.
    - destruct (exit_state env st Hinv Hex) as (_ & _ & _ & lines & Hlines & Hcon).
      rewrite Hcon. unfold header. rewrite !List.filter_app. simpl.
      rewrite app_nil_r. by apply stderr_lines. }
  split; [done|]. split; [done|].
  unfold count_verdict. rewrite <- Hmap. clear Hmap.
  induction Hall as [|l ls (f & e & ->) _ IH]; [done|]. simpl. by rewrite IH.
Qed.

Lemma line_ok_unique f l1 l2 :
  one_error env f -> line_ok env f l1 -> line_ok env f l2 -> l1 = l2.
Proof.
  intros Hone Hl1 Hl2.
  pose proof (line_ok_verdict env f l1 Hl1) as Hv1.
  pose proof (line_ok_verdict env f l2 Hl2) as Hv2.
  unfold line_ok in *. unfold one_error, tasks_of in Hone.
  destruct (convertAndCompressOne env f) as [ts|] eqn:Hc; [|congruence].
  destruct Hl1 as [[_ ->]|(t1 & e1 & Hin1 & Ho1 & ->)],
           Hl2 as [[_ ->]|(t2 & e2 & Hin2 & Ho2 & ->)]; try done; simpl in *.
  - congruence.
  - congruence.
  - f_equal. by eapply (Hone t1 t2).
Qed.

Lemma lines_unique fs : forall lines1 lines2,
  (forall f, f ∈ fs -> one_error env f) ->
  Forall2 (line_ok env) fs lines1 -> Forall2 (line_ok env) fs lines2 ->
  lines1 = lines2.
Proof.
  induction fs as [|f fs IH]; intros lines1 lines2 Hone Hl1 Hl2.
  - apply Forall2_nil_inv_l in Hl1, Hl2. congruence.
  - apply Forall2_cons_inv_l in Hl1 as (l1 & r1 & Hf1 & Hr1 & ->).
    apply Forall2_cons_inv_l in Hl2 as (l2 & r2 & Hf2 & Hr2 & ->).
    f_equal.
    + apply (line_ok_unique f); [apply Hone; by left|done|done].
    + apply IH; [|done|done]. intros f' Hf'. apply Hone. by right.
Qed.

(** X11.  When no file has two tasks that fail with different errors, the
    console at the exit is the same for every schedule: the timing of the
    I/O completions shows in nothing the program prints. *)
Theorem console_does_not_depend_on_timing (st1 st2 : State) :
  setup_ok env ->
  (forall f, f ∈ files env -> one_error env f) ->
  reachable env st1 -> exited st1 ->
  reachable env st2 -> exited st2 ->
  console st1 = console st2.
Proof.
  intros Hok Hone Hr1 Hex1 Hr2 Hex2.
  destruct (decide (files env = [])) as [He|Hne].
  - rewrite (reachable_idle env st1), (reachable_idle env st2); auto.
  - destruct (exit_state env st1 (reachable_inv env st1 Hok Hne Hr1) Hex1)
      as (_ & _ & _ & lines1 & Hlines1 & ->).
    destruct (exit_state env st2 (reachable_inv env st2 Hok Hne Hr2) Hex2)
      as (_ & _ & _ & lines2 & Hlines2 & ->).
    f_equal. f_equal. by apply (lines_unique (files env)).
Qed.

End Console.

Section Enumeration.

Context `{PathLib}.
Variable env : Env.

Lemma spread_set_order xs : forall seen,
  exists ys,
    spread_set seen xs = reverse seen ++ ys /\
    ys `sublist_of` xs /\
    (NoDup xs -> (forall x, x ∈ xs -> x ∉ seen) -> ys = xs).
Proof.
  induction xs as [|x xs IH]; intros seen; simpl.
  - exists []. by rewrite app_nil_r.
  - destruct (decide (x ∈ seen)) as [Hx|Hx].
    + destruct (IH seen) as (ys & -> & Hsub & Hid).
      exists ys. split; [done|]. split; [by apply sublist_cons|].
      intros _ Hfresh. destruct (Hfresh x); [by left|done].
    + destruct (IH (x :: seen)) as (ys & -> & Hsub & Hid).
      exists (x :: ys). split; [by rewrite reverse_cons, <- app_assoc|].
      split; [by apply sublist_skip|].
      intros [Hnotin Hnd]%NoDup_cons Hfresh. f_equal. apply Hid; [done|].
      intros y Hy [->|Hin]%elem_of_cons; [done|].
      apply (Hfresh y); [by right|done].
Qed.

(** X12.  The enumeration keeps the order of the patterns: the list of
    source files is a sublist of the PNG matches followed by the [.jpg]
    matches followed by the [.jpeg] matches, it holds exactly their
    elements, and it is that concatenation itself when no path is matched
    twice. *)
Theorem enumeration_keeps_the_order_of_the_patterns (pngs jpgs jpegs : list string) :
  glob env (join (BEFORE_DIR env) "**/*.png") = Fulfilled pngs ->
  glob env (join (BEFORE_DIR env) "**/*.jpg") = Fulfilled jpgs ->
  glob env (join (BEFORE_DIR env) "**/*.jpeg") = Fulfilled jpegs ->
  files env `sublist_of` pngs ++ jpgs ++ jpegs /\
  (forall f, f ∈ files env <-> f ∈ pngs \/ f ∈ jpgs \/ f ∈ jpegs) /\
  (NoDup (pngs ++ jpgs ++ jpegs) -> files env = pngs ++ jpgs ++ jpegs).
Proof.
  intros Hpng Hjpg Hjpeg.
  assert (filesNested env = Fulfilled [pngs; jpgs; jpegs]) as Hn.
  { unfold filesNested, patterns. simpl. by rewrite Hpng, Hjpg, Hjpeg. }
  assert (concat [pngs; jpgs; jpegs] = pngs ++ jpgs ++ jpegs) as Hc
    by (simpl; by rewrite app_nil_r).
  split; [|split].
  - unfold files. rewrite Hn, Hc.
    by destruct (spread_set_order (pngs ++ jpgs ++ jpegs) []) as (ys & -> & Hsub & _).
  - intros f. rewrite (files_elem env _ f Hn), Hc, !elem_of_app. tauto.
  - intros Hnd. unfold files. rewrite Hn, Hc.
    destruct (spread_set_order (pngs ++ jpgs ++ jpegs) []) as (ys & -> & _ & Hid).
    simpl. apply Hid; [done|]. intros x _ Hx. by apply elem_of_nil in Hx.
Qed.

End Enumeration.

Section Flight.

Context `{PathLib}.
Variable env : Env.

(** What the loop adds to a state: [SKIP] lines and the tally on the
    console, calls in the history, and fresh tasks to wait for. *)
Lemma loop_shape todo : forall results st,
  exists extra k,
    console (loop env todo results st) = console st ++ extra /\
    Forall (fun l => is_error l = false /\ forall f outs, l <> LOk f outs) extra /\
    history (loop env todo results st) = history st ++ map Called k /\
    detached (loop env todo results st) = detached st /\
    disk (loop env todo results st) = disk st /\
    (control (loop env todo results st) = Returned \/
     exists f ts rest rs,
       control (loop env todo results st)
       = Awaiting f (map (fun t => (t, AwaitSharp)) ts) rest rs /\
       convertAndCompressOne env f = Some ts).
Proof.
  induction todo as [|f rest IH]; intros results st; simpl.
  - exists [LDone (okCount results) (length (files env))], [].
    rewrite app_nil_r. repeat split; auto.
  - destruct (convertAndCompressOne env f) as [ts|] eqn:Hc.
    + exists [], [f]. simpl. rewrite app_nil_r. repeat split; auto.
      right. by exists f, ts, rest, results.
    + destruct (IH (results ++ [{| srcPath := f; outputs := []; skipped := true |}])
                  (say (LSkip f) (record (Called f) st)))
        as (extra & k & -> & Hex & -> & -> & -> & Hctl).
      exists (LSkip f :: extra), (f :: k). simpl. rewrite <- !app_assoc.
      repeat split; auto.
Qed.

Lemma in_flight_app a b : in_flight (a ++ b) = in_flight a + in_flight b.
Proof. unfold in_flight. by rewrite List.filter_app, length_app. Qed.

Lemma in_flight_le ts : in_flight ts <= length ts.
Proof. unfold in_flight. apply List.filter_length_le. Qed.

Lemma in_flight_filter ts :
  in_flight (List.filter (fun ts => pending ts.2) ts) = in_flight ts.
Proof.
  unfold in_flight. induction ts as [|[t s] ts IH]; [done|]. simpl.
  destruct (pending s) eqn:E; simpl; rewrite ?E; simpl; by rewrite ?IH.
Qed.

Lemma in_flight_insert (ts : list (Task * Stage)) i t s s' :
  ts !! i = Some (t, s) -> pending s = true ->
  in_flight (<[i := (t, s')]> ts) + 1 = in_flight ts + (if pending s' then 1 else 0).
Proof.
  revert i. induction ts as [|x l IH]; intros [|i] Hi Hs; simpl in *; try done.
  - injection Hi as ->. unfold in_flight. simpl. rewrite Hs.
    destruct (pending s'); simpl; lia.
  - specialize (IH i Hi Hs). unfold in_flight in *. simpl.
    destruct (pending x.2); simpl; lia.
Qed.

Lemma errors_app a b :
  List.filter is_error (a ++ b) = List.filter is_error a ++ List.filter is_error b.
Proof. apply List.filter_app. Qed.

Lemma errors_of_loop extra :
  Forall (fun l => is_error l = false /\ forall f outs, l <> LOk f outs) extra ->
  List.filter is_error extra = [].
Proof.
  induction 1 as [|l extra [Hl _] _ IH]; [done|]. simpl. by rewrite Hl.
Qed.

Lemma few_in_flight_loop todo results st :
  in_flight (detached st) <= length (List.filter is_error (console st)) ->
  few_in_flight (loop env todo results st).
Proof.
  intros Hst. unfold few_in_flight, current.
  destruct (loop_shape todo results st)
    as (extra & k & -> & Hex & _ & -> & _ & [->|(f & ts & rest & rs & -> & Hc)]).
  - rewrite errors_app, length_app. simpl. lia.
  - rewrite errors_app, length_app, length_map. split; [|lia].
    unfold convertAndCompressOne in Hc. repeat case_match; simplify_eq; simpl; lia.
Qed.

Lemma fire_few_in_flight p st st' :
  few_in_flight st -> fire env p st = Some st' -> few_in_flight st'.
Proof.
  intros [Hcur Hdet] Hfire. destruct p as [i|i]; simpl in Hfire.
  - unfold current in Hcur.
    destruct (control st) as [f tasks rest results| |] eqn:Hc; try done.
    destruct (tasks !! i) as [[t s]|] eqn:Hi; [|done].
    destruct (pending s) eqn:Hpend; [|done].
    pose proof (in_flight_insert tasks i t s (resume env t s) Hi Hpend) as Hins.
    assert ((exists e, resume env t s = Rejected e) \/
            (forall e, resume env t s <> Rejected e)) as [[e He]|Hnr]
      by (destruct (resume env t s); eauto).
    + rewrite He in Hfire, Hins. injection Hfire as <-. simpl in Hins.
      apply few_in_flight_loop. simpl.
      rewrite in_flight_app, in_flight_filter, errors_app, length_app. simpl.
      pose proof (in_flight_le tasks). lia.
    + rewrite not_rejected_match in Hfire by done.
      destruct (forallb (fun ts => resolved ts.2) (<[i := (t, resume env t s)]> tasks));
        injection Hfire as <-.
      * apply few_in_flight_loop. simpl.
        rewrite errors_app, length_app. simpl. lia.
      * unfold few_in_flight, current. simpl. by rewrite length_insert.
  - destruct (detached st !! i) as [[t s]|] eqn:Hi; [|done].
    destruct (pending s) eqn:Hpend; [|done].
    injection Hfire as <-. unfold few_in_flight, current in *. simpl. split; [done|].
    pose proof (in_flight_insert (detached st) i t s (resume env t s) Hi Hpend).
    destruct (pending (resume env t s)); lia.
Qed.

Lemma run_few_in_flight sched : forall st st',
  few_in_flight st -> run env sched st = Some st' -> few_in_flight st'.
Proof.
  induction sched as [|p sched IH]; simpl; intros st st' Hst Hrun.
  - by injection Hrun as <-.
  - destruct (fire env p st) as [st1|] eqn:Hf; [|done].
    eapply IH; [|done]. by eapply fire_few_in_flight.
Qed.

Lemma main_few_in_flight : few_in_flight (main env).
Proof.
  unfold main.
  destruct (ensureDirs env); [|unfold few_in_flight, current, in_flight; simpl; lia].
  destruct (filesNested env); [|unfold few_in_flight, current, in_flight; simpl; lia].
  destruct (length (files env) =? 0)%nat;
    [unfold few_in_flight, current, in_flight; simpl; lia|].
  apply few_in_flight_loop. simpl. unfold in_flight. simpl. lia.
Qed.

(** X13.  In every state of every run, [main] waits for at most two tasks,
    and the tasks in flight that were left behind are at most as many as the
    [ERROR] lines printed: without a failure at most two I/O operations are
    ever in flight, and each failed file adds at most one. *)
Theorem tasks_in_flight_are_bounded_by_failures (st : State) :
  reachable env st ->
  length (current st) <= 2 /\
  in_flight (detached st) <= length (List.filter is_error (console st)) /\
  in_flight (current st) + in_flight (detached st)
  <= 2 + length (List.filter is_error (console st)).
Proof.
  intros [sched Hrun].
  destruct (run_few_in_flight sched _ _ main_few_in_flight Hrun) as [Hcur Hdet].
  split; [done|]. split; [done|].
  pose proof (in_flight_le (current st)). lia.
Qed.

End Flight.

Section Outputs.

Context `{PathLib}.
Variable env : Env.

Lemma writes_called k : writes (map Called k) = [].
Proof. induction k as [|f k IH]; [done|]. simpl. exact IH. Qed.

Lemma resume_resolved t s :
  pending s = true -> resume env t s = Resolved ->
  exists c, s = AwaitWrite c /\ written env t s = Some c.
Proof.
  intros Hp Hr. destruct s; simpl in *; try done.
  - destruct (sharp env (t_src t) (t_enc t)); [|done].
    by destruct (truthy (API_KEY env)).
  - destruct (axios_post env key buf); [|done].
    destruct (non2xx (shrink_status value)); [done|].
    by destruct (truthy (shrink_location value)).
  - destruct (axios_get env key outputUrl); [|done].
    by destruct (non2xx (output_status value)).
  - exists compressed. split; [done|].
    by destruct (fs_writeFile env (t_out t) compressed).
Qed.

Lemma elem_of_insert_inv {A} (l : list A) i x y :
  y ∈ <[i := x]> l -> y = x \/ y ∈ l.
Proof.
  revert i. induction l as [|a l IH]; intros i Hy; simpl in *.
  - by right.
  - destruct i as [|i]; simpl in Hy.
    + apply elem_of_cons in Hy as [->|Hy]; [by left|]. right. by right.
    + apply elem_of_cons in Hy as [->|Hy]; [right; by left|].
      destruct (IH i Hy) as [->|Hl]; [by left|]. right. by right.
Qed.

Lemma start_not_resolved (ts : list Task) t :
  (t, Resolved) ∈ map (fun t => (t, AwaitSharp)) ts -> False.
Proof.
  induction ts as [|a ts IH]; simpl; intros Hin.
  - by apply elem_of_nil in Hin.
  - apply elem_of_cons in Hin as [Heq|Hin]; [done|by apply IH].
Qed.

Lemma recorded_loop todo results st :
  (forall f outs, LOk f outs ∈ console st ->
     outs = map t_out (tasks_of env f) /\
     forall t, t ∈ tasks_of env f -> exists c, (t, c) ∈ writes (history st)) ->
  recorded env (loop env todo results st).
Proof.
  intros Hst. unfold recorded, current, awaited.
  destruct (loop_shape env todo results st)
    as (extra & k & -> & Hex & -> & _ & _ & Hctl).
  rewrite writes_app, writes_called, app_nil_r.
  split; [|destruct Hctl as [->|(f & ts & rest & rs & -> & Hc)]].
  - intros f outs Hin. apply elem_of_app in Hin as [Hin|Hin]; [by apply Hst|].
    rewrite Forall_forall in Hex. destruct (Hex _ Hin) as [_ Hno]. by destruct (Hno f outs).
  - split; intros x Hx; by apply elem_of_nil in Hx.
  - split.
    + intros t Ht. by destruct (start_not_resolved ts t).
    + intros f' Hf'. apply list_elem_of_singleton in Hf' as ->.
      unfold tasks_of. by rewrite Hc, map_fst_start.
Qed.

Lemma write_kept (h : list Event) e t c :
  (t, c) ∈ writes h -> (t, c) ∈ writes (h ++ [e]).
Proof. intros Hin. rewrite writes_app. apply elem_of_app. by left. Qed.

Lemma fire_recorded p st st' :
  recorded env st -> fire env p st = Some st' -> recorded env st'.
Proof.
  intros (Hok & Hres & Haw) Hfire. destruct p as [i|i]; simpl in Hfire.
  - unfold current, awaited in Hres, Haw.
    destruct (control st) as [f tasks rest results| |] eqn:Hc; try done.
    destruct (tasks !! i) as [[t s]|] eqn:Hi; [|done].
    destruct (pending s) eqn:Hpend; [|done].
    assert (Hold : forall f outs, LOk f outs ∈ console st ->
              outs = map t_out (tasks_of env f) /\
              forall t0, t0 ∈ tasks_of env f ->
                exists c, (t0, c) ∈ writes (history st ++ [Delivered t s (resume env t s)])).
    { intros f0 outs Hin. destruct (Hok f0 outs Hin) as [Hout Hw]. split; [done|].
      intros t0 Ht0. destruct (Hw t0 Ht0) as [c Hc0]. exists c. by apply write_kept. }
    assert (Hnew : forall t0, (t0, Resolved) ∈ <[i := (t, resume env t s)]> tasks ->
              exists c, (t0, c) ∈ writes (history st ++ [Delivered t s (resume env t s)])).
    { intros t0 Ht0. apply elem_of_insert_inv in Ht0 as [Heq|Hin].
      - injection Heq as -> Hr. symmetry in Hr.
        destruct (resume_resolved t s Hpend Hr) as (c & -> & Hw).
        exists c. rewrite writes_app. apply elem_of_app. right.
        rewrite writes_delivered, Hw. by left.
      - destruct (Hres t0 Hin) as [c Hc0]. exists c. by apply write_kept. }
    assert (Hfst : tasks_of env f = map fst (<[i := (t, resume env t s)]> tasks)).
    { rewrite (map_fst_insert _ _ _ _ _ Hi). apply Haw. by left. }
    assert ((exists e, resume env t s = Rejected e) \/
            (forall e, resume env t s <> Rejected e)) as [[e He]|Hnr]
      by (destruct (resume env t s); eauto).
    + rewrite He in Hfire. injection Hfire as <-.
      apply recorded_loop. simpl. intros f0 outs Hin.
      apply elem_of_app in Hin as [Hin|Hin]; [by apply Hold|].
      by apply list_elem_of_singleton in Hin.
    + rewrite not_rejected_match in Hfire by done.
      destruct (forallb (fun ts => resolved ts.2) (<[i := (t, resume env t s)]> tasks))
        eqn:Hall; injection Hfire as <-.
      * apply recorded_loop. simpl. intros f0 outs Hin.
        apply elem_of_app in Hin as [Hin|Hin]; [by apply Hold|].
        apply list_elem_of_singleton in Hin. injection Hin as -> ->.
        split.
        { rewrite Hfst. clear. induction (<[i:=(t, resume env t s)]> tasks) as [|x l IH];
            simpl; [done|]. by rewrite IH. }
        intros t0 Ht0. rewrite Hfst in Ht0.
        apply list_elem_of_fmap in Ht0 as ([t1 s1] & -> & Hin). simpl.
        apply Hnew. rewrite forallb_forall in Hall.
        apply list_elem_of_In in Hin as Hin'. specialize (Hall _ Hin'). simpl in Hall.
        by destruct s1.
      * unfold recorded, current, awaited. simpl. split; [done|]. split; [done|].
        intros f0 Hf0. by apply list_elem_of_singleton in Hf0 as ->.
  - destruct (detached st !! i) as [[t s]|] eqn:Hi; [|done].
    destruct (pending s) eqn:Hpend; [|done].
    injection Hfire as <-. unfold recorded, current, awaited in *. simpl.
    split; [|split; [|done]].
    + intros f0 outs Hin. destruct (Hok f0 outs Hin) as [Hout Hw]. split; [done|].
      intros t0 Ht0. destruct (Hw t0 Ht0) as [c Hc0]. exists c. by apply write_kept.
    + intros t0 Ht0. destruct (Hres t0 Ht0) as [c Hc0]. exists c. by apply write_kept.
Qed.

Lemma run_recorded sched : forall st st',
  recorded env st -> run env sched st = Some st' -> recorded env st'.
Proof.
  induction sched as [|p sched IH]; simpl; intros st st' Hst Hrun.
  - by injection Hrun as <-.
  - destruct (fire env p st) as [st1|] eqn:Hf; [|done].
    eapply IH; [|done]. by eapply fire_recorded.
Qed.

Lemma no_ok_yet (ls : list Line) (P : string -> list string -> Prop) :
  Forall (fun l => forall f outs, l <> LOk f outs) ls ->
  forall f outs, LOk f outs ∈ ls -> P f outs.
Proof.
  intros Hls f outs Hin. rewrite Forall_forall in Hls. by destruct (Hls _ Hin f outs).
Qed.

Lemma idle_recorded st :
  (forall f outs, LOk f outs ∉ console st) ->
  control st = Returned \/ (exists e, control st = Threw e) ->
  recorded env st.
Proof.
  intros Hno Hctl. unfold recorded, current, awaited. split; [|split].
  - intros f outs Hin. by destruct (Hno f outs).
  - intros t Hin. destruct Hctl as [Hc|[e Hc]]; rewrite Hc in Hin;
      by apply elem_of_nil in Hin.
  - intros f Hin. destruct Hctl as [Hc|[e Hc]]; rewrite Hc in Hin;
      by apply elem_of_nil in Hin.
Qed.

Lemma main_recorded : recorded env (main env).
Proof.
  unfold main.
  destruct (ensureDirs env).
  2:{ apply idle_recorded; simpl; [|eauto].
      intros f outs Hin. by apply list_elem_of_singleton in Hin. }
  destruct (filesNested env).
  2:{ apply idle_recorded; simpl; [|eauto].
      intros f outs Hin. by apply list_elem_of_singleton in Hin. }
  destruct (length (files env) =? 0)%nat.
  { apply idle_recorded; simpl; [|eauto].
    intros f outs Hin. by apply list_elem_of_singleton in Hin. }
  apply recorded_loop. simpl. apply no_ok_yet. by repeat constructor.
Qed.

Lemma reachable_recorded st : reachable env st -> recorded env st.
Proof. intros [sched Hrun]. eapply run_recorded; [|done]. apply main_recorded. Qed.

Lemma replay_written (d : gmap string Buffer) ws t c :
  (t, c) ∈ ws ->
  exists t' c', (t', c') ∈ ws /\ t_out t' = t_out t /\ replay d ws !! t_out t = Some c'.
Proof.
  induction ws as [|[t1 c1] ws IH] using rev_ind; intros Hin.
  - by apply elem_of_nil in Hin.
  - unfold replay in *. rewrite foldl_app. simpl. rewrite lookup_insert.
    case_decide as Hp.
    + exists t1, c1. split; [|done]. apply elem_of_app. right. by left.
    + apply elem_of_app in Hin as [Hin|Hin].
      * destruct (IH Hin) as (t' & c' & Hin' & Hout & Hl).
        exists t', c'. split; [|done]. apply elem_of_app. by left.
      * apply list_elem_of_singleton in Hin. injection Hin as -> ->. done.
Qed.

(** X14.  An [OK] line tells the truth: it lists the output paths of the
    derivatives of its file, in order, and from the moment it is printed
    each of these paths holds on disk the compressed form of a derivative
    with that path; when no other task of the batch writes to that path, it
    is what the compressor returned for what [sharp] made of this very
    file. *)
Theorem files_of_an_ok_line_are_on_disk (st : State) (f : string) (outs : list string) :
  reachable env st -> LOk f outs ∈ console st ->
  outs = map t_out (tasks_of env f) /\
  forall t, t ∈ tasks_of env f ->
    exists b, disk st !! t_out t = Some b /\
              compressed_output env (t_out t) b /\
              (uncontended env (t_out t) ->
               exists buf, sharp env f (t_enc t) = Fulfilled buf /\
                           tinifyCompressBuffer env buf = inr b).
Proof.
  intros Hr Hin.
  destruct (reachable_recorded st Hr) as (Hok & _ & _).
  destruct (Hok f outs Hin) as [Hout Hw]. split; [done|].
  intros t Ht. destruct (Hw t Ht) as [c Hc].
  destruct (replay_written (disk0 env) _ t c Hc) as (t' & c' & Hin' & Hpath & Hl).
  rewrite <- (reachable_disk env st Hr) in Hl.
  destruct (writes_are_compressed env st t' c' Hr Hin') as (Hg' & buf' & Hs' & Ht').
  destruct (writes_are_compressed env st t c Hr Hc) as (Hg & _).
  exists c'. split; [done|]. split.
  - exists t', buf'. by rewrite Hpath.
  - intros Hun. assert (t' = t) as -> by (by apply Hun).
    destruct (task_of_file env f t Ht) as (Hsrc & _).
    exists buf'. by rewrite <- Hsrc.
Qed.

End Outputs.

Section Partial.

Context `{PathLib}.
Variable env : Env.

Lemma settled_kept h h' t : settled_in h t -> settled_in (h ++ h') t.
Proof.
  intros [[c Hc]|(s & e & Hin)]; [left|right].
  - exists c. rewrite writes_app. apply elem_of_app. by left.
  - exists s, e. apply elem_of_app. by left.
Qed.

Lemma settled_delivered h t s :
  pending s = true -> pending (resume env t s) = false ->
  settled_in (h ++ [Delivered t s (resume env t s)]) t.
Proof.
  intros Hp Hr. destruct (resume env t s) eqn:He; try done.
  - destruct (resume_resolved env t s Hp He) as (c & -> & Hw).
    left. exists c. rewrite writes_app. apply elem_of_app. right.
    rewrite <- He, writes_delivered, Hw. by left.
  - right. exists s, e. apply elem_of_app. right. by left.
Qed.

Lemma write_delivered h t s :
  pending s = true -> resume env t s = Resolved ->
  exists c, (t, c) ∈ writes (h ++ [Delivered t s (resume env t s)]).
Proof.
  intros Hp He. destruct (resume_resolved env t s Hp He) as (c & -> & Hw).
  exists c. rewrite writes_app. apply elem_of_app. right.
  rewrite writes_delivered, Hw. by left.
Qed.

Lemma accounted_loop todo : forall results st,
  (forall f t, f ∈ calls (history st) -> t ∈ tasks_of env f ->
     (exists s, (t, s) ∈ detached st /\ pending s = true) \/
     settled_in (history st) t) ->
  accounted env (loop env todo results st).
Proof.
  induction todo as [|f rest IH]; intros results st Hst; simpl.
  - split; simpl.
    + unfold current. simpl. intros t s Hin. by apply elem_of_nil in Hin.
    + intros f t Hf Ht. right. by apply (Hst f).
  - assert (Hold : forall f0 t, f0 ∈ calls (history st) -> t ∈ tasks_of env f0 ->
              (exists s, (t, s) ∈ detached st /\ pending s = true) \/
              settled_in (history st ++ [Called f]) t).
    { intros f0 t Hf0 Ht. destruct (Hst f0 t Hf0 Ht) as [Hd|Hs]; [by left|].
      right. by apply settled_kept. }
    destruct (convertAndCompressOne env f) as [ts|] eqn:Hc.
    + split; unfold current; simpl.
      * intros t s Hin. left.
        apply list_elem_of_fmap in Hin as (t' & Heq & _). by injection Heq as _ ->.
      * intros f0 t Hf0 Ht. rewrite calls_app in Hf0.
        apply elem_of_app in Hf0 as [Hf0|Hf0]; [right; by apply (Hold f0)|].
        apply list_elem_of_singleton in Hf0 as ->. left.
        unfold tasks_of in Ht. rewrite Hc in Ht. by rewrite map_fst_start.
    + apply IH. simpl. intros f0 t Hf0 Ht. rewrite calls_app in Hf0.
      apply elem_of_app in Hf0 as [Hf0|Hf0]; [by apply (Hold f0)|].
      apply list_elem_of_singleton in Hf0 as ->.
      unfold tasks_of in Ht. rewrite Hc in Ht. by apply elem_of_nil in Ht.
Qed.

Lemma calls_delivered h t s s' : calls (h ++ [Delivered t s s']) = calls h.
Proof. rewrite calls_app. simpl. apply app_nil_r. Qed.

Lemma fire_accounted p st st' :
  accounted env st -> fire env p st = Some st' -> accounted env st'.
Proof.
  intros [Hcur Hall] Hfire. destruct p as [i|i]; simpl in Hfire.
  - unfold current in Hcur, Hall.
    destruct (control st) as [f tasks rest results| |] eqn:Hc; try done.
    destruct (tasks !! i) as [[t s]|] eqn:Hi; [|done].
    destruct (pending s) eqn:Hpend; [|done].
    set (h' := history st ++ [Delivered t s (resume env t s)]) in *.
    assert (Hkeep : forall t0 c, (t0, c) ∈ writes (history st) -> (t0, c) ∈ writes h').
    { intros t0 c Hin. by apply write_kept. }
    assert ((exists e, resume env t s = Rejected e) \/
            (forall e, resume env t s <> Rejected e)) as [[e He]|Hnr]
      by (destruct (resume env t s); eauto).
    + assert (Hnew : forall f0 t0, f0 ∈ calls h' -> t0 ∈ tasks_of env f0 ->
                (exists s0, (t0, s0) ∈ detached st ++
                     List.filter (fun ts => pending ts.2) (<[i := (t, resume env t s)]> tasks)
                   /\ pending s0 = true) \/
                settled_in h' t0).
      { intros f0 t0 Hf0 Ht0. unfold h' in Hf0. rewrite calls_delivered in Hf0.
        destruct (Hall f0 t0 Hf0 Ht0) as [Hin|[(s0 & Hin & Hp0)|Hs]].
        - apply list_elem_of_fmap in Hin as ([t1 s1] & -> & Hin). simpl.
          apply list_elem_of_lookup in Hin as [j Hj].
          destruct (decide (j = i)) as [->|Hji].
          + rewrite Hi in Hj. injection Hj as <- <-. right.
            apply settled_delivered; [done|by rewrite He].
          + destruct (Hcur t1 s1) as [Hp1|[c Hw]].
            { by eapply list_elem_of_lookup_2. }
            * left. exists s1. split; [|done]. apply elem_of_app. right.
              apply list_elem_of_In, List.filter_In. split; [|done].
              apply list_elem_of_In. apply (list_elem_of_lookup_2 _ j).
              by rewrite list_lookup_insert_ne.
            * right. left. exists c. by apply Hkeep.
        - left. exists s0. split; [|done]. apply elem_of_app. by left.
        - right. by apply settled_kept. }
      rewrite He in Hfire. injection Hfire as <-.
      apply accounted_loop. simpl. fold h'. rewrite <- He. exact Hnew.
    + rewrite not_rejected_match in Hfire by done.
      destruct (forallb (fun ts => resolved ts.2) (<[i := (t, resume env t s)]> tasks))
        eqn:Hres; injection Hfire as <-.
      * apply accounted_loop. simpl. fold h'. intros f0 t0 Hf0 Ht0.
        unfold h' in Hf0. rewrite calls_delivered in Hf0.
        destruct (Hall f0 t0 Hf0 Ht0) as [Hin|[(s0 & Hin & Hp0)|Hs]].
        -- right. apply list_elem_of_fmap in Hin as ([t1 s1] & -> & Hin). simpl.
           apply list_elem_of_lookup in Hin as [j Hj].
           rewrite forallb_forall in Hres.
           destruct (decide (j = i)) as [->|Hji].
           ++ rewrite Hi in Hj. injection Hj as <- <-.
              apply settled_delivered; [done|].
              assert (resolved (resume env t s) = true) as Hr.
              { apply (Hres (t, resume env t s)). apply list_elem_of_In.
                apply (list_elem_of_lookup_2 _ i). apply list_lookup_insert_eq.
                by eapply lookup_lt_Some. }
              by destruct (resume env t s).
           ++ assert (resolved s1 = true) as Hr.
              { apply (Hres (t1, s1)). apply list_elem_of_In.
                apply (list_elem_of_lookup_2 _ j). by rewrite list_lookup_insert_ne. }
              destruct (Hcur t1 s1) as [Hp1|[c Hw]].
              { by eapply list_elem_of_lookup_2. }
              ** by destruct s1.
              ** left. exists c. by apply Hkeep.
        -- left. by exists s0.
        -- right. by apply settled_kept.
      * split; unfold current; simpl; fold h'.
        -- intros t0 s0 Hin. apply elem_of_insert_inv in Hin as [Heq|Hin].
           ++ injection Heq as -> ->.
              destruct (pending (resume env t s)) eqn:Hp; [by left|]. right.
              assert (resume env t s = Resolved) as He.
              { destruct (resume env t s) eqn:He; try done. by destruct (Hnr e). }
              by apply write_delivered.
           ++ destruct (Hcur t0 s0 Hin) as [Hp|[c Hw]]; [by left|].
              right. exists c. by apply Hkeep.
        -- intros f0 t0 Hf0 Ht0. unfold h' in Hf0. rewrite calls_delivered in Hf0.
           rewrite (map_fst_insert _ _ _ _ _ Hi).
           destruct (Hall f0 t0 Hf0 Ht0) as [Hin|[Hd|Hs]]; [by left|right; by left|].
           right. right. by apply settled_kept.
  - destruct (detached st !! i) as [[t s]|] eqn:Hi; [|done].
    destruct (pending s) eqn:Hpend; [|done].
    injection Hfire as <-. unfold accounted, current in *. simpl. split.
    + intros t0 s0 Hin. destruct (Hcur t0 s0 Hin) as [Hp|[c Hw]]; [by left|].
      right. exists c. by apply write_kept.
    + intros f0 t0 Hf0 Ht0. rewrite calls_delivered in Hf0.
      destruct (Hall f0 t0 Hf0 Ht0) as [Hin|[(s0 & Hin & Hp0)|Hs]]; [by left| |].
      * apply list_elem_of_lookup in Hin as [j Hj].
        destruct (decide (j = i)) as [->|Hji].
        -- rewrite Hi in Hj. injection Hj as <- <-.
           destruct (pending (resume env t s)) eqn:Hp.
           ++ right. left. exists (resume env t s). split; [|done].
              apply (list_elem_of_lookup_2 _ i). apply list_lookup_insert_eq.
              by eapply lookup_lt_Some.
           ++ right. right. by apply settled_delivered.
        -- right. left. exists s0. split; [|done].
           apply (list_elem_of_lookup_2 _ j). by rewrite list_lookup_insert_ne.
      * right. right. by apply settled_kept.
Qed.

Lemma run_accounted sched : forall st st',
  accounted env st -> run env sched st = Some st' -> accounted env st'.
Proof.
  induction sched as [|p sched IH]; simpl; intros st st' Hst Hrun.
  - by injection Hrun as <-.
  - destruct (fire env p st) as [st1|] eqn:Hf; [|done].
    eapply IH; [|done]. by eapply fire_accounted.
Qed.

Lemma idle_accounted st :
  control st = Returned \/ (exists e, control st = Threw e) ->
  history st = [] -> accounted env st.
Proof.
  intros Hctl Hh. split.
  - unfold current. intros t s Hin.
    destruct Hctl as [Hc|[e Hc]]; rewrite Hc in Hin; by apply elem_of_nil in Hin.
  - intros f t Hf. rewrite Hh in Hf. by apply elem_of_nil in Hf.
Qed.

Lemma main_accounted : accounted env (main env).
Proof.
  unfold main.
  destruct (ensureDirs env); [|apply idle_accounted; simpl; eauto].
  destruct (filesNested env); [|apply idle_accounted; simpl; eauto].
  destruct (length (files env) =? 0)%nat; [apply idle_accounted; simpl; eauto|].
  apply accounted_loop. simpl. intros f t Hf. by apply elem_of_nil in Hf.
Qed.

Lemma reachable_accounted st : reachable env st -> accounted env st.
Proof. intros [sched Hrun]. eapply run_accounted; [|done]. apply main_accounted. Qed.

Lemma delivered_fate st t s s' :
  reachable env st -> Delivered t s s' ∈ history st -> pending s' = false ->
  s' = fate env t.
Proof.
  intros Hr Hin Hp.
  destruct (delivered_ok env st t s s' Hr Hin) as (_ & Hpath & _ & ->).
  apply on_path_final; [by apply on_path_resume|done].
Qed.

(** X15.  At the exit every derivative that can be made has been made,
    whatever became of its file: a task of an enumerated file has written
    its output exactly when it succeeds on its own, and then its output path
    holds the compressed form of a derivative; a task that fails has had one
    of its steps rejected with its error.  This holds of the files reported
    with an [ERROR] line too: the derivative of such a file that does not
    fail is written all the same. *)
Theorem every_derivative_that_can_be_made_is_made (st : State) (f : string) (t : Task) :
  setup_ok env -> reachable env st -> exited st ->
  f ∈ files env -> t ∈ tasks_of env f ->
  (task_succeeds env t = true <-> exists c, (t, c) ∈ writes (history st)) /\
  (task_succeeds env t = true ->
     exists b, disk st !! t_out t = Some b /\ compressed_output env (t_out t) b) /\
  (task_succeeds env t = false ->
     exists s e, Delivered t s (Rejected e) ∈ history st /\ outcome env t = inl e).
Proof.
  intros Hok Hr Hex Hf Ht.
  destruct (at_exit env st Hok Hr Hex) as (Hcode & Hcalls & _).
  destruct (reachable_accounted st Hr) as [_ Hall].
  assert (settled_in (history st) t) as Hset.
  { rewrite <- Hcalls in Hf. unfold exit_code in Hcode. unfold current in Hall.
    destruct (Hall f t Hf Ht) as [Hin|[(s & Hin & Hp)|Hs]]; [| |done].
    - destruct (control st); try done. by apply elem_of_nil in Hin.
    - destruct (control st); try done.
      destruct (quiescent st) eqn:Hq; [|done].
      unfold quiescent in Hq. rewrite forallb_forall in Hq.
      apply list_elem_of_In in Hin. specialize (Hq _ Hin). simpl in Hq.
      by rewrite Hp in Hq. }
  assert (forall c, (t, c) ∈ writes (history st) -> task_succeeds env t = true) as Hw.
  { intros c Hc. apply elem_of_writes in Hc.
    apply fate_resolved. symmetry. by apply (delivered_fate st t (AwaitWrite c)). }
  assert (forall s e, Delivered t s (Rejected e) ∈ history st -> outcome env t = inl e)
    as Hrej.
  { intros s e Hin. apply fate_rejected. symmetry. by apply (delivered_fate st t s). }
  assert (forall c, (t, c) ∈ writes (history st) ->
            exists b, disk st !! t_out t = Some b /\ compressed_output env (t_out t) b)
    as Hdisk.
  { intros c Hc.
    destruct (replay_written (disk0 env) _ t c Hc) as (t' & c' & Hin' & Hpath & Hl).
    rewrite <- (reachable_disk env st Hr) in Hl.
    destruct (writes_are_compressed env st t' c' Hr Hin') as (Hg' & buf' & Hs' & Ht').
    exists c'. split; [done|]. exists t', buf'. by rewrite Hpath. }
  split; [split|split].
  - intros Hs. destruct Hset as [Hc|(s & e & Hin)]; [done|].
    apply Hrej in Hin. unfold task_succeeds in Hs. by rewrite Hin in Hs.
  - intros [c Hc]. by apply (Hw c).
  - intros Hs. destruct Hset as [[c Hc]|(s & e & Hin)]; [by apply (Hdisk c)|].
    apply Hrej in Hin. unfold task_succeeds in Hs. by rewrite Hin in Hs.
  - intros Hs. destruct Hset as [[c Hc]|(s & e & Hin)].
    + apply Hw in Hc. congruence.
    + exists s, e. split; [done|by apply (Hrej s)].
Qed.

End Partial.

(** ** The same properties on concrete batches *)

Import Schedules.

Lemma after_reachable env sched :
  is_Some (run env sched (main env)) -> reachable env (after env sched).
Proof. intros [st Hst]. exists sched. unfold after. by rewrite Hst. Qed.

Lemma overlap_reachable : reachable same_base (after same_base overlap).
Proof. apply after_reachable. vm_compute. by eexists. Qed.

Lemma setup_ok_same_base : setup_ok same_base.
Proof. split; [by exists tt|]. eexists. vm_compute. reflexivity. Qed.

Lemma exited_same_base : exited (finish same_base).2.
Proof. exists 0%Z. vm_compute. reflexivity. Qed.

Lemma files_same_base : files same_base = ["/w/before/a.png"; "/w/before/a.jpg"].
Proof. vm_compute. reflexivity. Qed.

Lemma console_one_refused :
  console (finish one_refused).2
  = [LInput 3; LOutDir "/w/after";
     LOk "/w/before/a.png" ["/w/after/a.jpg"; "/w/after/a.webp"];
     LOk "/w/before/c.png" ["/w/after/c.jpg"; "/w/after/c.webp"];
     LError "/w/before/b.jpg" (ShrinkFailed 429 "Too many requests");
     LDone 2 3].
Proof. vm_compute. reflexivity. Qed.

(** The two derivatives of [a.png] fail in two ways, and the [ERROR] line of
    [a.png] carries the error of the one that fails first in time: the
    console does depend on the schedule when a file has two errors to
    choose from. *)
Example error_line_depends_on_timing :
  reachable two_errors (after two_errors upload_first) /\
  exited (after two_errors upload_first) /\
  reachable two_errors (after two_errors encoder_first) /\
  exited (after two_errors encoder_first) /\
  console (after two_errors upload_first)
  = [LInput 1; LOutDir "/w/after";
     LError "/w/before/a.png" (ShrinkFailed 429 "Too many requests"); LDone 0 1] /\
  console (after two_errors encoder_first)
  = [LInput 1; LOutDir "/w/after";
     LError "/w/before/a.png" (Raised Sharp "webp: unsupported"); LDone 0 1].
Proof.
  split; [apply after_reachable; vm_compute; by eexists|].
  split; [exists 0%Z; vm_compute; reflexivity|].
  split; [apply after_reachable; vm_compute; by eexists|].
  split; [exists 0%Z; vm_compute; reflexivity|].
  split; vm_compute; reflexivity.
Qed.

(** X1 on the batch where nothing fails: after the call on [a.jpg], nothing
    is delivered to the WebP task of [a.png] any more. *)
Lemma files_that_do_not_fail_are_over_before_the_next_starts_witness :
  reachable same_base_ok (finish same_base_ok).2 /\
  history (finish same_base_ok).2
  = take 9 (history (finish same_base_ok).2)
    ++ Called "/w/before/a.jpg" :: drop 10 (history (finish same_base_ok).2) /\
  t_src a_png_webp ∈ calls (take 9 (history (finish same_base_ok).2)) /\
  verdict same_base_ok (t_src a_png_webp) <> Failed /\
  forall s s', Delivered a_png_webp s s' ∉ drop 10 (history (finish same_base_ok).2).
Proof.
  assert (history (finish same_base_ok).2
          = take 9 (history (finish same_base_ok).2)
            ++ Called "/w/before/a.jpg" :: drop 10 (history (finish same_base_ok).2))
    as Hh by (vm_compute; reflexivity).
  assert (t_src a_png_webp ∈ calls (take 9 (history (finish same_base_ok).2))) as Hc.
  { replace (calls (take 9 (history (finish same_base_ok).2)))
      with ["/w/before/a.png"] by (vm_compute; reflexivity).
    by left. }
  assert (verdict same_base_ok (t_src a_png_webp) <> Failed) as Hv.
  { intros Hv. vm_compute in Hv. discriminate Hv. }
  split; [apply finish_reachable|]. split; [exact Hh|]. split; [exact Hc|].
  split; [exact Hv|].
  exact (files_that_do_not_fail_are_over_before_the_next_starts same_base_ok _ _ _ _ _
           (finish_reachable same_base_ok) Hh Hc Hv).
Defined.

(** X2 in the middle of a run: [a.png] has failed and has its line, [a.jpg]
    is being waited for. *)
Lemma files_start_in_order_after_their_predecessors_witness :
  reachable same_base (after same_base overlap) /\
  awaited (after same_base overlap) = ["/w/before/a.jpg"] /\
  calls (history (after same_base overlap)) `prefix_of` files same_base /\
  calls (history (after same_base overlap))
  = map fst (reports (console (after same_base overlap))) ++ ["/w/before/a.jpg"].
Proof.
  assert (awaited (after same_base overlap) = ["/w/before/a.jpg"]) as Ha
    by (vm_compute; reflexivity).
  split; [exact overlap_reachable|]. split; [exact Ha|].
  destruct (files_start_in_order_after_their_predecessors same_base _ overlap_reachable)
    as (Hpre & _ & Hcalls).
  split; [exact Hpre|]. rewrite Ha in Hcalls. exact Hcalls.
Defined.

(** X3 on the batch of three files and five tasks. *)
Lemma a_run_takes_at_most_four_completions_per_task_witness :
  run one_refused (finish one_refused).1 (main one_refused) = Some (finish one_refused).2 /\
  length (finish one_refused).1 <= 4 * length (batch_tasks one_refused).
Proof.
  split; [exact (drive_run one_refused 64 (main one_refused))|].
  exact (proj1 (a_run_takes_at_most_four_completions_per_task one_refused _ _
                  (drive_run one_refused 64 (main one_refused)))).
Defined.

(** X4 when the output directory cannot be created. *)
Lemma failed_setup_processes_nothing_witness :
  setup_failed no_after /\
  reachable no_after (main no_after) /\
  history (main no_after) = [] /\
  exit_code (main no_after) = Some 1%Z.
Proof.
  assert (setup_failed no_after) as Hbad
    by (left; by exists "EACCES: permission denied, mkdir").
  assert (reachable no_after (main no_after)) as Hr by (by exists []).
  split; [exact Hbad|]. split; [exact Hr|].
  destruct (failed_setup_processes_nothing no_after _ Hbad Hr) as (_ & Hh & _ & Hcode & _).
  split; [exact Hh|exact Hcode].
Defined.

(** X5: the file [a.webp] of the output directory comes from an enumerated
    source with base name [a]. *)
Lemma only_output_paths_are_touched_witness :
  reachable one_refused (finish one_refused).2 /\
  exists f ext,
    f ∈ files one_refused /\
    "/w/after/a.webp" = withExt (AFTER_DIR one_refused) (baseNameNoExt f) ext.
Proof.
  split; [apply finish_reachable|].
  assert (disk (finish one_refused).2 !! "/w/after/a.webp"
          <> disk0 one_refused !! "/w/after/a.webp") as Hd.
  { intros Hd. vm_compute in Hd. discriminate Hd. }
  destruct (proj2 (only_output_paths_are_touched one_refused _
                     (finish_reachable one_refused)) _ Hd)
    as (f & ext & Hf & Hp & _).
  by exists f, ext.
Defined.

(** X6 on the batch without a credential. *)
Lemma without_credential_nothing_is_requested_witness :
  truthy (API_KEY no_key) = None /\
  reachable no_key (finish no_key).2 /\
  writes (history (finish no_key).2) = [].
Proof.
  split; [reflexivity|]. split; [apply finish_reachable|].
  exact (proj2 (without_credential_nothing_is_requested no_key _ eq_refl
                  (finish_reachable no_key))).
Defined.

(** X7 in the middle of a run. *)
Lemma requests_carry_what_the_code_computed_witness :
  reachable same_base (after same_base overlap) /\
  Forall (fun ts => stage_data same_base ts.1 ts.2)
    (current (after same_base overlap) ++ detached (after same_base overlap)).
Proof.
  split; [exact overlap_reachable|].
  exact (proj2 (requests_carry_what_the_code_computed same_base _ overlap_reachable)).
Defined.

(** X8 on the batch of three files, one of which fails. *)
Lemma tally_is_full_exactly_when_all_succeed_witness :
  setup_ok one_refused /\ files one_refused <> [] /\
  reachable one_refused (finish one_refused).2 /\ exited (finish one_refused).2 /\
  exists ok n, last (console (finish one_refused).2) = Some (LDone ok n) /\ ok <= n.
Proof.
  assert (files one_refused <> []) as Hne by (by rewrite files_one_refused).
  split; [apply setup_ok_one_refused|]. split; [exact Hne|].
  split; [apply finish_reachable|]. split; [apply exited_one_refused|].
  destruct (tally_is_full_exactly_when_all_succeed one_refused _ setup_ok_one_refused Hne
              (finish_reachable one_refused) exited_one_refused)
    as (ok & n & Hlast & _ & Hle & _).
  by exists ok, n.
Defined.

(** X9 on the same batch. *)
Lemma console_at_exit_witness :
  setup_ok one_refused /\ files one_refused <> [] /\
  reachable one_refused (finish one_refused).2 /\ exited (finish one_refused).2 /\
  exists lines,
    console (finish one_refused).2
    = [LInput (length (files one_refused)); LOutDir (AFTER_DIR one_refused)] ++ lines
      ++ [LDone (count_verdict one_refused Succeeded (files one_refused))
            (length (files one_refused))] /\
    Forall2 (status_of one_refused) (files one_refused) lines.
Proof.
  assert (files one_refused <> []) as Hne by (by rewrite files_one_refused).
  split; [apply setup_ok_one_refused|]. split; [exact Hne|].
  split; [apply finish_reachable|]. split; [apply exited_one_refused|].
  exact (console_at_exit one_refused _ setup_ok_one_refused Hne
           (finish_reachable one_refused) exited_one_refused).
Defined.

(** X10 on the same batch: one line on the standard error. *)
Lemma stderr_has_one_line_per_failed_file_witness :
  setup_ok one_refused /\
  reachable one_refused (finish one_refused).2 /\ exited (finish one_refused).2 /\
  omap error_file (List.filter to_stderr (console (finish one_refused).2))
  = ["/w/before/b.jpg"].
Proof.
  split; [apply setup_ok_one_refused|].
  split; [apply finish_reachable|]. split; [apply exited_one_refused|].
  destruct (stderr_has_one_line_per_failed_file one_refused _ setup_ok_one_refused
              (finish_reachable one_refused) exited_one_refused) as (Hmap & _).
  rewrite Hmap. vm_compute. reflexivity.
Defined.

Lemma one_error_same_base f : f ∈ files same_base -> one_error same_base f.
Proof.
  rewrite files_same_base. intros Hf t1 t2 e1 e2 Ht1 Ht2 Ho1 Ho2.
  apply elem_of_cons in Hf as [->|Hf]; [|apply elem_of_cons in Hf as [->|Hf]].
  - change (tasks_of same_base "/w/before/a.png") with [a_png_jpg; a_png_webp] in Ht1, Ht2.
    apply elem_of_cons in Ht1 as [->|Ht1]; [|apply elem_of_cons in Ht1 as [->|Ht1]];
      [|vm_compute in Ho1; discriminate Ho1|by apply elem_of_nil in Ht1].
    apply elem_of_cons in Ht2 as [->|Ht2]; [|apply elem_of_cons in Ht2 as [->|Ht2]];
      [|vm_compute in Ho2; discriminate Ho2|by apply elem_of_nil in Ht2].
    congruence.
  - change (tasks_of same_base "/w/before/a.jpg") with [a_jpg_webp] in Ht1.
    apply elem_of_cons in Ht1 as [->|Ht1]; [|by apply elem_of_nil in Ht1].
    vm_compute in Ho1. discriminate Ho1.
  - by apply elem_of_nil in Hf.
Qed.

(** X11 on two schedules of one batch: the task left behind by [a.png]
    completes after the tasks of [a.jpg] in one, before them in the other. *)
Lemma console_does_not_depend_on_timing_witness :
  setup_ok same_base /\
  (forall f, f ∈ files same_base -> one_error same_base f) /\
  reachable same_base (finish same_base).2 /\ exited (finish same_base).2 /\
  reachable same_base (after same_base sibling_first) /\
  exited (after same_base sibling_first) /\
  disk (finish same_base).2 <> disk (after same_base sibling_first) /\
  console (finish same_base).2 = console (after same_base sibling_first).
Proof.
  assert (reachable same_base (after same_base sibling_first)) as Hr
    by (apply after_reachable; vm_compute; by eexists).
  assert (exited (after same_base sibling_first)) as Hex
    by (exists 0%Z; vm_compute; reflexivity).
  split; [exact setup_ok_same_base|]. split; [exact one_error_same_base|].
  split; [apply finish_reachable|]. split; [exact exited_same_base|].
  split; [exact Hr|]. split; [exact Hex|]. split.
  - intros Hd.
    assert (disk (finish same_base).2 !! "/w/after/a.webp"
            = disk (after same_base sibling_first) !! "/w/after/a.webp") as Hl
      by (by rewrite Hd).
    vm_compute in Hl. discriminate Hl.
  - exact (console_does_not_depend_on_timing same_base _ _ setup_ok_same_base
             one_error_same_base (finish_reachable same_base) exited_same_base Hr Hex).
Defined.

(** X12 on a listing of two PNG files and one JPEG file. *)
Lemma enumeration_keeps_the_order_of_the_patterns_witness :
  glob one_refused (join (BEFORE_DIR one_refused) "**/*.png")
  = Fulfilled ["/w/before/a.png"; "/w/before/c.png"] /\
  glob one_refused (join (BEFORE_DIR one_refused) "**/*.jpg")
  = Fulfilled ["/w/before/b.jpg"] /\
  glob one_refused (join (BEFORE_DIR one_refused) "**/*.jpeg") = Fulfilled [] /\
  files one_refused `sublist_of` ["/w/before/a.png"; "/w/before/c.png"] ++ ["/w/before/b.jpg"] ++ [].
Proof.
  assert (glob one_refused (join (BEFORE_DIR one_refused) "**/*.png")
          = Fulfilled ["/w/before/a.png"; "/w/before/c.png"]) as Hpng
    by (vm_compute; reflexivity).
  assert (glob one_refused (join (BEFORE_DIR one_refused) "**/*.jpg")
          = Fulfilled ["/w/before/b.jpg"]) as Hjpg by (vm_compute; reflexivity).
  assert (glob one_refused (join (BEFORE_DIR one_refused) "**/*.jpeg") = Fulfilled [])
    as Hjpeg by (vm_compute; reflexivity).
  split; [exact Hpng|]. split; [exact Hjpg|]. split; [exact Hjpeg|].
  exact (proj1 (enumeration_keeps_the_order_of_the_patterns one_refused _ _ _
                  Hpng Hjpg Hjpeg)).
Defined.

(** X13 in the middle of a run: one task of [a.jpg] and the task [a.png] left
    behind are in flight, after one [ERROR] line. *)
Lemma tasks_in_flight_are_bounded_by_failures_witness :
  reachable same_base (after same_base overlap) /\
  in_flight (current (after same_base overlap)) = 1 /\
  in_flight (detached (after same_base overlap)) = 1 /\
  in_flight (detached (after same_base overlap))
  <= length (List.filter is_error (console (after same_base overlap))).
Proof.
  split; [exact overlap_reachable|].
  split; [vm_compute; reflexivity|]. split; [vm_compute; reflexivity|].
  exact (proj1 (proj2 (tasks_in_flight_are_bounded_by_failures same_base _
                         overlap_reachable))).
Defined.

(** X14 on the [OK] line of [a.png]. *)
Lemma files_of_an_ok_line_are_on_disk_witness :
  reachable one_refused (finish one_refused).2 /\
  LOk "/w/before/a.png" ["/w/after/a.jpg"; "/w/after/a.webp"]
    ∈ console (finish one_refused).2 /\
  exists b, disk (finish one_refused).2 !! "/w/after/a.jpg" = Some b /\
            compressed_output one_refused "/w/after/a.jpg" b.
Proof.
  assert (LOk "/w/before/a.png" ["/w/after/a.jpg"; "/w/after/a.webp"]
            ∈ console (finish one_refused).2) as Hin.
  { rewrite console_one_refused. do 2 right. by left. }
  split; [apply finish_reachable|]. split; [exact Hin|].
  destruct (files_of_an_ok_line_are_on_disk one_refused _ _ _
              (finish_reachable one_refused) Hin) as [_ Hall].
  assert (a_png_jpg ∈ tasks_of one_refused "/w/before/a.png") as Ht.
  { change (tasks_of one_refused "/w/before/a.png") with [a_png_jpg; a_png_webp].
    by left. }
  destruct (Hall _ Ht) as (b & Hd & Hc & _).
  by exists b.
Defined.

(** X15 on a file that fails: the JPEG of [a.png] is refused, the WebP of
    [a.png] is written all the same. *)
Lemma every_derivative_that_can_be_made_is_made_witness :
  setup_ok same_base /\
  reachable same_base (finish same_base).2 /\ exited (finish same_base).2 /\
  "/w/before/a.png" ∈ files same_base /\
  a_png_webp ∈ tasks_of same_base "/w/before/a.png" /\
  verdict same_base "/w/before/a.png" = Failed /\
  exists c, (a_png_webp, c) ∈ writes (history (finish same_base).2).
Proof.
  assert ("/w/before/a.png" ∈ files same_base) as Hf
    by (rewrite files_same_base; by left).
  assert (a_png_webp ∈ tasks_of same_base "/w/before/a.png") as Ht.
  { change (tasks_of same_base "/w/before/a.png") with [a_png_jpg; a_png_webp].
    right. by left. }
  split; [exact setup_ok_same_base|].
  split; [apply finish_reachable|]. split; [exact exited_same_base|].
  split; [exact Hf|]. split; [exact Ht|]. split; [vm_compute; reflexivity|].
  destruct (every_derivative_that_can_be_made_is_made same_base _ _ _
              setup_ok_same_base (finish_reachable same_base) exited_same_base Hf Ht)
    as (Hiff & _).
  apply Hiff. vm_compute. reflexivity.
Defined.
